(** * HoloCompute DSM core: a shallow embedding and its checked properties

    The development follows the Go sources of the distributed shared
    memory engine:
    - [internal/dsm/storage.go]: [pageStorage], its typed accessors and
      its raw byte accessors;
    - [internal/dsm/dsm.go]: [Page], [Array], [NewArray] and the
      [MemoryManager];
    - [internal/dsm/lease.go]: [LeaseManager];
    - [internal/dsm/cache.go]: the 2Q [PageCache];
    - [pkg/holocompute/array.go]: [sharedArray].

    Go's [int] is modelled as a 64-bit two's complement integer (the
    width on amd64 and arm64) carried by [Z], with the wrap-around of
    [+] and [*] written out. Time instants are integers (nanoseconds),
    and the clock reading of every call is an explicit argument. *)

From Stdlib Require Import ZArith List Lia Bool.
From Stdlib Require Import Floats.SpecFloat.
From stdpp Require Import gmap strings list fin_maps.

(* ===================================================================== *)
(** * Part I: definitions                                                 *)
(* ===================================================================== *)

(** ** Go machine integers *)

Module GoInt.
Local Open Scope Z_scope.

Definition int_bits : Z := 64.
Definition MaxInt : Z := 2 ^ (int_bits - 1) - 1.
Definition MinInt : Z := - 2 ^ (int_bits - 1).

(** Two's complement reduction of a mathematical integer to [int]. *)
Definition wrap (z : Z) : Z :=
  (z + 2 ^ (int_bits - 1)) mod 2 ^ int_bits - 2 ^ (int_bits - 1).

Definition add (a b : Z) : Z := wrap (a + b).
Definition sub (a b : Z) : Z := wrap (a - b).
Definition mul (a b : Z) : Z := wrap (a * b).
(** Go's [/] on integers truncates toward zero. *)
Definition quo (a b : Z) : Z := wrap (Z.quot a b).

(** [uint64(v)] for [v : int64], [int64(u)] for [u : uint64]. *)
Definition uint64_of_int64 (v : Z) : Z := v mod 2 ^ 64.
Definition int64_of_uint64 (u : Z) : Z :=
  if u <? 2 ^ 63 then u else u - 2 ^ 64.

(** [byte(v)]: the low eight bits. *)
Definition byte_of (v : Z) : Z := v mod 256.
End GoInt.

(** ** Results of a call

    A Go function of the engine either returns normally, returns one of
    its [fmt.Errorf] errors, or stops in a run-time panic. *)

Inductive error : Type :=
| ErrOutOfBounds (offset : Z)
| ErrWriteLeaseExists (pageID : Z) (arrayID : string)
| ErrReadLeaseExists (pageID : Z) (arrayID : string)
| ErrLeaseNotFound (leaseID : string)
| ErrLeaseExpired (leaseID : string).

Inductive panic : Type :=
| PanicSliceBounds (lo hi : Z)
| PanicIndex (i : Z)
| PanicNilDereference.

Inductive outcome (A : Type) : Type :=
| Ok (a : A)
| Err (e : error)
| Panicked (p : panic).
Arguments Ok {A} a.
Arguments Err {A} e.
Arguments Panicked {A} p.

(** ** encoding/binary, little endian *)

Module LittleEndian.
Local Open Scope Z_scope.
Import GoInt.

(** [binary.LittleEndian.Uint64(b)]: starts with [_ = b[7]]. *)
Definition Uint64 (b : list Z) : outcome Z :=
  match b with
  | b0 :: b1 :: b2 :: b3 :: b4 :: b5 :: b6 :: b7 :: _ =>
      Ok (Z.lor (Z.lor (Z.lor (Z.lor (Z.lor (Z.lor (Z.lor
            b0 (Z.shiftl b1 8)) (Z.shiftl b2 16)) (Z.shiftl b3 24))
            (Z.shiftl b4 32)) (Z.shiftl b5 40)) (Z.shiftl b6 48))
            (Z.shiftl b7 56))
  | _ => Panicked (PanicIndex 7)
  end.

(** The eight bytes [binary.LittleEndian.PutUint64] stores. *)
Definition bytes64 (v : Z) : list Z :=
  [ byte_of v; byte_of (Z.shiftr v 8); byte_of (Z.shiftr v 16);
    byte_of (Z.shiftr v 24); byte_of (Z.shiftr v 32);
    byte_of (Z.shiftr v 40); byte_of (Z.shiftr v 48);
    byte_of (Z.shiftr v 56) ].

(** [binary.LittleEndian.Uint32(b)]: starts with [_ = b[3]]. *)
Definition Uint32 (b : list Z) : outcome Z :=
  match b with
  | b0 :: b1 :: b2 :: b3 :: _ =>
      Ok (Z.lor (Z.lor (Z.lor
            b0 (Z.shiftl b1 8)) (Z.shiftl b2 16)) (Z.shiftl b3 24))
  | _ => Panicked (PanicIndex 3)
  end.

(** The four bytes [binary.LittleEndian.PutUint32] stores. *)
Definition bytes32 (v : Z) : list Z :=
  [ byte_of v; byte_of (Z.shiftr v 8); byte_of (Z.shiftr v 16);
    byte_of (Z.shiftr v 24) ].
End LittleEndian.

(** ** float32 values and Go's numeric conversions *)

Module Float32.
Local Open Scope Z_scope.

(** A [float32] is an IEEE-754 binary32 value: 24 bits of precision,
    infinities at exponent 128. *)
Definition prec : Z := 24.
Definition emax : Z := 128.
Definition float32 : Type := spec_float.

(** The integer obtained by discarding the fraction of a finite value
    (truncation toward zero); [None] for infinities and NaN. *)
Definition trunc (v : float32) : option Z :=
  match v with
  | S754_zero _ => Some 0
  | S754_finite s m e =>
      let a := if 0 <=? e then Z.shiftl (Zpos m) e
               else Z.shiftr (Zpos m) (- e) in
      Some (if s then - a else a)
  | S754_infinity _ | S754_nan => None
  end.

(** [uint32(v)] for [v : float32]. The fraction is discarded; when the
    result does not fit [uint32] the Go specification leaves the value
    to the implementation, here the function [unrep]. *)
Definition to_uint32 (unrep : float32 -> Z) (v : float32) : Z :=
  match trunc v with
  | Some z => if (0 <=? z) && (z <? 2 ^ 32) then z else unrep v mod 2 ^ 32
  | None => unrep v mod 2 ^ 32
  end.

(** [float32(u)] for [u : uint32]: rounding to nearest, ties to even. *)
Definition of_uint32 (u : Z) : float32 :=
  binary_normalize prec emax u 0 false.

(** Specification side, for comparison with the code: a 4-byte
    little-endian 32-bit float is the IEEE-754 bit pattern of the value
    (what [math.Float32bits] returns; the accessors never call it).
    Given for zeros and for normal numbers in canonical form. *)
Definition spec_ieee_bits (v : float32) : option Z :=
  match v with
  | S754_zero s => Some (if s then 2 ^ 31 else 0)
  | S754_finite s m e =>
      if (Zpos (digits2_pos m) =? prec) && (-149 <=? e) && (e <=? 104)
      then Some ((if s then 2 ^ 31 else 0)
                 + Z.shiftl (e + 150) 23 + (Zpos m - 2 ^ 23))
      else None
  | _ => None
  end.
End Float32.

(** ** Page storage ([storage.go]) *)

Module Storage.
Local Open Scope Z_scope.
Import GoInt.

(** [type pageStorage struct { data []byte }]; a byte is a [Z] in
    [0, 256). *)
Record pageStorage : Type := { data : list Z }.

Definition len (b : list Z) : Z := Z.of_nat (length b).

Definition newPageStorage (size : Z) : pageStorage :=
  {| data := repeat 0 (Z.to_nat size) |}.

(** The slice expression [b[lo:hi]] on a slice whose capacity equals
    its length: it panics unless [0 <= lo <= hi <= len(b)]. *)
Definition slice (b : list Z) (lo hi : Z) : outcome (list Z) :=
  if (0 <=? lo) && (lo <=? hi) && (hi <=? len b)
  then Ok (take (Z.to_nat (hi - lo)) (drop (Z.to_nat lo) b))
  else Panicked (PanicSliceBounds lo hi).

(** Writing [bs] through the slice [b[lo:lo+len(bs)]], which shares
    its backing array with [b]. *)
Definition store (b : list Z) (lo : Z) (bs : list Z) : list Z :=
  take (Z.to_nat lo) b ++ bs ++ drop (Z.to_nat lo + length bs) b.

Definition getInt64 (ps : pageStorage) (offset : Z) : outcome Z :=
  if (offset <? 0) || (add offset 8 >? len (data ps))
  then Err (ErrOutOfBounds offset)
  else
    match slice (data ps) offset (add offset 8) with
    | Ok b =>
        match LittleEndian.Uint64 b with
        | Ok u => Ok (int64_of_uint64 u)
        | Err e => Err e
        | Panicked p => Panicked p
        end
    | Err e => Err e
    | Panicked p => Panicked p
    end.

(** A setter returns the storage after the call together with what
    the caller sees: [Ok tt] for a [nil] error. *)
Definition setInt64 (ps : pageStorage) (offset value : Z)
  : pageStorage * outcome unit :=
  if (offset <? 0) || (add offset 8 >? len (data ps))
  then (ps, Err (ErrOutOfBounds offset))
  else
    match slice (data ps) offset (add offset 8) with
    | Ok b =>
        match b with
        | _ :: _ :: _ :: _ :: _ :: _ :: _ :: _ :: _ =>
            ({| data := store (data ps) offset
                          (LittleEndian.bytes64 (uint64_of_int64 value)) |},
             Ok tt)
        | _ => (ps, Panicked (PanicIndex 7))
        end
    | Err e => (ps, Err e)
    | Panicked p => (ps, Panicked p)
    end.

Definition getFloat32 (ps : pageStorage) (offset : Z)
  : outcome Float32.float32 :=
  if (offset <? 0) || (add offset 4 >? len (data ps))
  then Err (ErrOutOfBounds offset)
  else
    match slice (data ps) offset (add offset 4) with
    | Ok b =>
        match LittleEndian.Uint32 b with
        | Ok u => Ok (Float32.of_uint32 u)
        | Err e => Err e
        | Panicked p => Panicked p
        end
    | Err e => Err e
    | Panicked p => Panicked p
    end.

Definition setFloat32 (unrep : Float32.float32 -> Z)
    (ps : pageStorage) (offset : Z) (value : Float32.float32)
  : pageStorage * outcome unit :=
  if (offset <? 0) || (add offset 4 >? len (data ps))
  then (ps, Err (ErrOutOfBounds offset))
  else
    match slice (data ps) offset (add offset 4) with
    | Ok b =>
        match b with
        | _ :: _ :: _ :: _ :: _ =>
            ({| data := store (data ps) offset
                          (LittleEndian.bytes32
                             (Float32.to_uint32 unrep value)) |},
             Ok tt)
        | _ => (ps, Panicked (PanicIndex 3))
        end
    | Err e => (ps, Err e)
    | Panicked p => (ps, Panicked p)
    end.
End Storage.

(** ** Pages and arrays ([dsm.go]) *)

Module Dsm.
Local Open Scope Z_scope.
Import GoInt.

Definition PageSize : Z := 64 * 1024.

Record Page : Type := {
  ID : Z;
  Version : Z;
  Data : list Z;
  storage : Storage.pageStorage
}.

Definition NewPage (id version : Z) : Page :=
  {| ID := id; Version := version;
     Data := repeat 0 (Z.to_nat PageSize);
     storage := Storage.newPageStorage PageSize |}.

Definition with_storage (p : Page) (ps : Storage.pageStorage) : Page :=
  {| ID := ID p; Version := Version p; Data := Data p; storage := ps |}.

Definition GetInt64 (p : Page) (elementIndex : Z) : outcome Z :=
  let offset := mul elementIndex 8 in
  Storage.getInt64 (storage p) offset.

Definition SetInt64 (p : Page) (elementIndex value : Z)
  : Page * outcome unit :=
  let offset := mul elementIndex 8 in
  let '(ps, r) := Storage.setInt64 (storage p) offset value in
  (with_storage p ps, r).

Definition GetFloat32 (p : Page) (elementIndex : Z)
  : outcome Float32.float32 :=
  let offset := mul elementIndex 4 in
  Storage.getFloat32 (storage p) offset.

Definition SetFloat32 (unrep : Float32.float32 -> Z)
    (p : Page) (elementIndex : Z) (value : Float32.float32)
  : Page * outcome unit :=
  let offset := mul elementIndex 4 in
  let '(ps, r) := Storage.setFloat32 unrep (storage p) offset value in
  (with_storage p ps, r).

(** [Array]; the mutex is not part of the sequential model. *)
Record Array : Type := {
  AID : string;
  Length : Z;
  NumPages : Z;
  PageMapping : gmap Z string;
  AVersion : Z
}.

(** [NewArray(length)]; [uuid] is the string [uuid.New()] produced. *)
Definition NewArray (uuid : string) (length : Z) : Array :=
  let pageCount := quo (sub (add (mul length 8) PageSize) 1) PageSize in
  {| AID := uuid; Length := length; NumPages := pageCount;
     PageMapping := ∅; AVersion := 1 |}.

Definition PageCount (a : Array) : Z := NumPages a.
End Dsm.

(** ** Lease manager ([lease.go]) *)

Module Lease.
Local Open Scope Z_scope.

(** [type LeaseType int] with the constants [ReadLease = iota] and
    [WriteLease]: a lease type is an integer, of which the code names
    two. *)
Definition LeaseType : Type := Z.
Definition ReadLease : LeaseType := 0.
Definition WriteLease : LeaseType := 1.

#[global] Instance LeaseType_eq_dec : EqDecision LeaseType := Z.eq_dec.

Record Lease : Type := {
  ID : string;
  ArrayID : string;
  PageID : Z;
  Type_ : LeaseType;
  Owner : string;
  ExpiresAt : Z;
  Version : Z
}.

(** [leaseKey{arrayID, pageID}] *)
Abbreviation leaseKey := (string * Z)%type.

(** The lease table holds one [*Lease] per key; the mutex and the
    logger are not part of the sequential model. *)
Record LeaseManager : Type := {
  leases : gmap leaseKey Lease;
  ttl : Z
}.

Definition NewLeaseManager (ttl : Z) : LeaseManager :=
  {| leases := ∅; ttl := ttl |}.

Definition with_leases (lm : LeaseManager) (m : gmap leaseKey Lease)
  : LeaseManager :=
  {| leases := m; ttl := ttl lm |}.

(** [t.After(u)] *)
Definition After (t u : Z) : bool := u <? t.

(** [existingLease.ExpiresAt = ...], an assignment through the pointer
    stored in the table. *)
Definition set_ExpiresAt (l : Lease) (t : Z) : Lease :=
  {| ID := ID l; ArrayID := ArrayID l; PageID := PageID l;
     Type_ := Type_ l; Owner := Owner l; ExpiresAt := t;
     Version := Version l |}.

(** [AcquireLease]; [now] is the reading of [time.Now()] and [uuid]
    the string [uuid.New()] would produce in this call. *)
Definition AcquireLease (lm : LeaseManager) (now : Z) (uuid : string)
    (arrayID : string) (pageID : Z) (leaseType : LeaseType)
    (owner : string) (version : Z)
  : LeaseManager * outcome Lease :=
  let key := (arrayID, pageID) in
  let create :=
    let lease := {| ID := uuid; ArrayID := arrayID; PageID := pageID;
                    Type_ := leaseType; Owner := owner;
                    ExpiresAt := now + ttl lm; Version := version |} in
    (with_leases lm (<[key := lease]> (leases lm)), Ok lease) in
  match leases lm !! key with
  | Some existingLease =>
      if bool_decide (Type_ existingLease = WriteLease)
      then (lm, Err (ErrWriteLeaseExists pageID arrayID))
      else if bool_decide (Type_ existingLease = ReadLease)
              && bool_decide (leaseType = WriteLease)
      then (lm, Err (ErrReadLeaseExists pageID arrayID))
      else if bool_decide (Type_ existingLease = ReadLease)
              && bool_decide (leaseType = ReadLease)
      then
        let extended := set_ExpiresAt existingLease (now + ttl lm) in
        (with_leases lm (<[key := extended]> (leases lm)), Ok extended)
      else create
  | None => create
  end.

(** [for key, lease := range lm.leases { if lease.ID == leaseID ... }]:
    the first entry with that ID in the order of the iteration. Go does
    not fix the order; the model visits the entries in the order of
    [map_to_list]. *)
Definition find_by_ID (m : gmap leaseKey Lease) (leaseID : string)
  : option (leaseKey * Lease) :=
  List.find (λ kl, bool_decide (ID kl.2 = leaseID)) (map_to_list m).

Definition ReleaseLease (lm : LeaseManager) (leaseID : string)
  : LeaseManager * outcome unit :=
  match find_by_ID (leases lm) leaseID with
  | Some (key, _) => (with_leases lm (delete key (leases lm)), Ok tt)
  | None => (lm, Err (ErrLeaseNotFound leaseID))
  end.

Definition ValidateLease (lm : LeaseManager) (now : Z) (leaseID : string)
  : outcome Lease :=
  match find_by_ID (leases lm) leaseID with
  | Some (_, lease) =>
      if After now (ExpiresAt lease)
      then Err (ErrLeaseExpired leaseID)
      else Ok lease
  | None => Err (ErrLeaseNotFound leaseID)
  end.

Definition HasWriteLease (lm : LeaseManager) (now : Z)
    (arrayID : string) (pageID : Z) : bool :=
  match leases lm !! (arrayID, pageID) with
  | None => false
  | Some lease =>
      if After now (ExpiresAt lease) then false
      else bool_decide (Type_ lease = WriteLease)
  end.

Definition RevokeLease (lm : LeaseManager) (arrayID : string) (pageID : Z)
  : LeaseManager * outcome unit :=
  let key := (arrayID, pageID) in
  match leases lm !! key with
  | None => (lm, Ok tt)
  | Some _ => (with_leases lm (delete key (leases lm)), Ok tt)
  end.

(** The keys collected by the first loop of [CleanupExpiredLeases]. *)
Definition expired_keys (m : gmap leaseKey Lease) (now : Z)
  : list leaseKey :=
  (List.filter (λ kl, After now (ExpiresAt kl.2)) (map_to_list m)).*1.

Definition CleanupExpiredLeases (lm : LeaseManager) (now : Z)
  : LeaseManager :=
  let expired := expired_keys (leases lm) now in
  with_leases lm (foldl (λ m key, delete key m) (leases lm) expired).

(** *** Runs of the manager *)

Inductive op : Type :=
| OpAcquire (now : Z) (uuid : string) (arrayID : string) (pageID : Z)
    (leaseType : LeaseType) (owner : string) (version : Z)
| OpRelease (leaseID : string)
| OpRevoke (arrayID : string) (pageID : Z)
| OpCleanup (now : Z).

Definition run_op (lm : LeaseManager) (o : op) : LeaseManager :=
  match o with
  | OpAcquire now uuid a p ty owner v =>
      (AcquireLease lm now uuid a p ty owner v).1
  | OpRelease leaseID => (ReleaseLease lm leaseID).1
  | OpRevoke a p => (RevokeLease lm a p).1
  | OpCleanup now => CleanupExpiredLeases lm now
  end.

Definition run (ttl : Z) (ops : list op) : LeaseManager :=
  foldl run_op (NewLeaseManager ttl) ops.

(** *** What the table holds for a page at an instant *)

Definition table (lm : LeaseManager) : list Lease :=
  (map_to_list (leases lm)).*2.

Definition covers (arrayID : string) (pageID : Z) (l : Lease) : bool :=
  bool_decide (ArrayID l = arrayID) && bool_decide (PageID l = pageID).

Definition unexpired (now : Z) (l : Lease) : bool :=
  negb (After now (ExpiresAt l)).

(** The unexpired leases of a given type recorded for a page. *)
Definition live (lm : LeaseManager) (now : Z) (arrayID : string)
    (pageID : Z) (ty : LeaseType) : list Lease :=
  List.filter
    (λ l, covers arrayID pageID l && unexpired now l
          && bool_decide (Type_ l = ty))
    (table lm).
(** Every lease sits under the key of the page it names. *)
Definition keyed (m : gmap leaseKey Lease) : Prop :=
  ∀ k l, m !! k = Some l → k = (ArrayID l, PageID l).

(** No two entries of the table carry the same lease ID, as holds when
    every ID comes from [uuid.New()]. *)
Definition unique_IDs (m : gmap leaseKey Lease) : Prop :=
  ∀ k1 k2 l1 l2,
    m !! k1 = Some l1 → m !! k2 = Some l2 → ID l1 = ID l2 → k1 = k2.

(** Specification side, for comparison with the code: read sharing as
    per-requester leases. A Read request by [owner] on a page whose
    recorded lease is a Read lease of another requester returns a lease
    owned by [owner], and afterwards the table records that lease beside
    the earlier one. *)
Definition spec_per_requester_read (lm : LeaseManager) (now : Z)
    (uuid arrayID : string) (pageID : Z) (owner : string) (version : Z)
  : Prop :=
  let r := AcquireLease lm now uuid arrayID pageID ReadLease owner version in
  ∃ mine theirs,
    r.2 = Ok mine ∧ Owner mine = owner
    ∧ mine ∈ table r.1 ∧ theirs ∈ table r.1
    ∧ covers arrayID pageID theirs = true ∧ Owner theirs ≠ owner.
(** Two small tables used in the examples: a manager with a TTL of 10
    in which client-1 acquired, at instant 0, a Write lease (resp. a
    Read lease) on page 0 of array-1. *)
Definition held_write : LeaseManager :=
  (AcquireLease (NewLeaseManager 10) 0 "lease-1" "array-1" 0 WriteLease
     "client-1" 1).1.
Definition held_read : LeaseManager :=
  (AcquireLease (NewLeaseManager 10) 0 "lease-1" "array-1" 0 ReadLease
     "client-1" 1).1.
End Lease.

(** ** Page cache ([cache.go]) *)

Module Cache.
Local Open Scope Z_scope.

(** [cacheKey{arrayID, pageID}] *)
Abbreviation cacheKey := (string * Z)%type.

Record cacheEntry : Type := {
  key : cacheKey;
  page : Dsm.Page;
  fromFreq : bool
}.

(** In the source the index maps a key to a [*list.Element] whose
    [Value] is the [*cacheEntry], and that element sits in one of the
    two [container/list] lists. Here the index maps the key to the
    entry, and each list holds, front first, the keys of its elements:
    an element is named by the key of its entry. *)
Record PageCache : Type := {
  capacity : Z;
  cache : gmap cacheKey cacheEntry;
  freqList : list cacheKey;
  onceList : list cacheKey
}.

Definition NewPageCache (capacity : Z) : PageCache :=
  {| capacity := capacity; cache := ∅; freqList := []; onceList := [] |}.

(** [container/list]: [PushFront], [Remove], [MoveToFront], [Back],
    [Len]. *)
Definition PushFront (k : cacheKey) (l : list cacheKey) : list cacheKey :=
  k :: l.
Definition ListRemove (k : cacheKey) (l : list cacheKey) : list cacheKey :=
  filter (λ k', k' ≠ k) l.
Definition MoveToFront (k : cacheKey) (l : list cacheKey) : list cacheKey :=
  k :: ListRemove k l.
Definition Back (l : list cacheKey) : option cacheKey := last l.
Definition Len (l : list cacheKey) : Z := Z.of_nat (length l).

(** The promotion both [Get] and [Put] perform on a hit. *)
Definition touch (pc : PageCache) (k : cacheKey) (entry : cacheEntry)
  : PageCache :=
  if negb (fromFreq entry) then
    {| capacity := capacity pc;
       cache := <[k := {| key := key entry; page := page entry;
                          fromFreq := true |}]> (cache pc);
       freqList := PushFront k (freqList pc);
       onceList := ListRemove k (onceList pc) |}
  else
    {| capacity := capacity pc;
       cache := <[k := entry]> (cache pc);
       freqList := MoveToFront k (freqList pc);
       onceList := onceList pc |}.

Definition Get (pc : PageCache) (arrayID : string) (pageID : Z)
  : PageCache * option Dsm.Page :=
  let k := (arrayID, pageID) in
  match cache pc !! k with
  | None => (pc, None)
  | Some entry => (touch pc k entry, Some (page entry))
  end.

Definition evict (pc : PageCache) : PageCache :=
  match (if 0 <? Len (onceList pc) then Back (onceList pc) else None) with
  | Some k =>
      {| capacity := capacity pc;
         cache := delete k (cache pc);
         freqList := freqList pc;
         onceList := ListRemove k (onceList pc) |}
  | None =>
      match (if 0 <? Len (freqList pc) then Back (freqList pc)
             else None) with
      | Some k =>
          {| capacity := capacity pc;
             cache := delete k (cache pc);
             freqList := ListRemove k (freqList pc);
             onceList := onceList pc |}
      | None => pc
      end
  end.

Definition Put (pc : PageCache) (arrayID : string) (pageID : Z)
    (p : Dsm.Page) : PageCache :=
  let k := (arrayID, pageID) in
  match cache pc !! k with
  | Some entry =>
      touch pc k {| key := key entry; page := p;
                    fromFreq := fromFreq entry |}
  | None =>
      let entry := {| key := k; page := p; fromFreq := false |} in
      let pc' :=
        {| capacity := capacity pc;
           cache := <[k := entry]> (cache pc);
           freqList := freqList pc;
           onceList := PushFront k (onceList pc) |} in
      if Z.of_nat (size (cache pc')) >? capacity pc'
      then evict pc' else pc'
  end.

Definition Remove (pc : PageCache) (arrayID : string) (pageID : Z)
  : PageCache :=
  let k := (arrayID, pageID) in
  match cache pc !! k with
  | None => pc
  | Some entry =>
      if fromFreq entry then
        {| capacity := capacity pc; cache := delete k (cache pc);
           freqList := ListRemove k (freqList pc);
           onceList := onceList pc |}
      else
        {| capacity := capacity pc; cache := delete k (cache pc);
           freqList := freqList pc;
           onceList := ListRemove k (onceList pc) |}
  end.

Definition Size (pc : PageCache) : Z := Z.of_nat (size (cache pc)).
Definition Capacity (pc : PageCache) : Z := capacity pc.

(** *** Runs of the cache *)

Inductive op : Type :=
| OpGet (arrayID : string) (pageID : Z)
| OpPut (arrayID : string) (pageID : Z) (p : Dsm.Page)
| OpRemove (arrayID : string) (pageID : Z).

Definition run_op (pc : PageCache) (o : op) : PageCache :=
  match o with
  | OpGet a p => (Get pc a p).1
  | OpPut a p pg => Put pc a p pg
  | OpRemove a p => Remove pc a p
  end.

Definition run (capacity : Z) (ops : list op) : PageCache :=
  foldl run_op (NewPageCache capacity) ops.

(** The keys present in the cache. *)
Definition keys (pc : PageCache) : gset cacheKey := dom (cache pc).
(** The index and the two lists agree: no key sits twice in a list, the
    once list holds the keys whose entry has [fromFreq = false], the
    frequent list those whose entry has [fromFreq = true]. *)
Definition wf (pc : PageCache) : Prop :=
  NoDup (onceList pc) ∧ NoDup (freqList pc)
  ∧ (∀ k, k ∈ onceList pc
          ↔ ∃ e, cache pc !! k = Some e ∧ fromFreq e = false)
  ∧ (∀ k, k ∈ freqList pc
          ↔ ∃ e, cache pc !! k = Some e ∧ fromFreq e = true).

(** The test pages of [TestPageCache_Eviction]. *)
Definition page0 : Dsm.Page := Dsm.NewPage 0 1.
Definition page1 : Dsm.Page := Dsm.NewPage 1 1.
Definition page2 : Dsm.Page := Dsm.NewPage 2 1.
End Cache.

(** ** The public array handle ([pkg/holocompute/array.go]) *)

Module Api.
Local Open Scope Z_scope.

(** [sharedArray]; [array] is a pointer and may be [nil], as in the
    handle [NewSharedArray] returns. The cluster pointer plays no part
    in the methods modelled here. *)
Record sharedArray : Type := { array : option Dsm.Array }.

(** A method returning [error] yields the handle after the call and
    the error, [None] standing for [nil]. In [Set] the test
    [i < 0 || i >= sa.array.Length] reads [sa.array] only when [i] is
    not negative; its error, "index out of bounds", is rendered with
    [ErrOutOfBounds]. *)
Definition Set_ (sa : sharedArray) (i : Z) : sharedArray * outcome unit :=
  if i <? 0 then (sa, Err (ErrOutOfBounds i))
  else
    match array sa with
    | None => (sa, Panicked PanicNilDereference)
    | Some a =>
        if Dsm.Length a <=? i
        then (sa, Err (ErrOutOfBounds i))
        else (sa, Ok tt)
    end.

Definition Slice (sa : sharedArray) (begin_ end_ : Z) : sharedArray := sa.

(** [Sync]: the body is [return nil]. *)
Definition Sync (sa : sharedArray) : sharedArray * option error :=
  (sa, None).

(** [Close]: the body is [return nil]. *)
Definition Close (sa : sharedArray) : sharedArray * option error :=
  (sa, None).

(** The array version a caller observes through the handle. *)
Definition version_of (sa : sharedArray) : option Z :=
  Dsm.AVersion <$> array sa.
End Api.

(** ** Results of the remaining calls

    The raw-byte accessors of [storage.go] and the memory manager of
    [dsm.go] have errors of their own, and [RequestPage] wraps the error
    of [GetArray] with [%w]. *)

Inductive fault : Type :=
| Plain (e : error)
| ErrDataSizeMismatch (expected got : Z)
| ErrArrayNotFound (arrayID : string)
| ErrPageOwnerNotFound (pageID : Z) (arrayID : string)
| ErrIndexOutOfBounds (i : Z)
| ErrWrap (context : string) (f : fault).

Inductive crash : Type :=
| Runtime (p : panic)
| MakeSliceLen (n : Z).

Inductive result (A : Type) : Type :=
| Done (a : A)
| Failed (f : fault)
| Crashed (c : crash).
Arguments Done {A} a.
Arguments Failed {A} f.
Arguments Crashed {A} c.

(** ** Raw byte access ([storage.go]) *)

Module StorageBytes.
Local Open Scope Z_scope.
Import GoInt Storage.

(** [make([]byte, n)]: panics for a negative length; the allocation
    itself is taken to succeed. *)
Definition make (n : Z) : result (list Z) :=
  if n <? 0 then Crashed (MakeSliceLen n) else Done (repeat 0 (Z.to_nat n)).

(** [copy(dst, src)] copies [min(len(dst), len(src))] bytes and leaves
    the rest of [dst] as it is. *)
Definition copy (dst src : list Z) : list Z :=
  take (length dst) src ++ drop (length src) dst.

Definition readElement (ps : pageStorage) (offset elementSize : Z)
  : result (list Z) :=
  if (offset <? 0) || (add offset elementSize >? len (data ps))
  then Failed (Plain (ErrOutOfBounds offset))
  else
    match make elementSize with
    | Done buf =>
        match slice (data ps) offset (add offset elementSize) with
        | Ok src => Done (copy buf src)
        | Err e => Failed (Plain e)
        | Panicked p => Crashed (Runtime p)
        end
    | Failed f => Failed f
    | Crashed c => Crashed c
    end.

Definition writeElement (ps : pageStorage) (offset elementSize : Z)
    (bytes : list Z) : pageStorage * result unit :=
  if (offset <? 0) || (add offset elementSize >? len (data ps))
  then (ps, Failed (Plain (ErrOutOfBounds offset)))
  else if negb (len bytes =? elementSize)
  then (ps, Failed (ErrDataSizeMismatch elementSize (len bytes)))
  else
    match slice (data ps) offset (add offset elementSize) with
    | Ok dst => ({| data := store (data ps) offset (copy dst bytes) |},
                 Done tt)
    | Err e => (ps, Failed (Plain e))
    | Panicked p => (ps, Crashed (Runtime p))
    end.

(** [getData] hands out the slice itself. *)
Definition getData (ps : pageStorage) : list Z := data ps.

Definition setData (ps : pageStorage) (bytes : list Z)
  : pageStorage * result unit :=
  if negb (len bytes =? len (data ps))
  then (ps, Failed (ErrDataSizeMismatch (len (data ps)) (len bytes)))
  else ({| data := copy (data ps) bytes |}, Done tt).
End StorageBytes.

(** ** Memory manager ([dsm.go]) *)

Module Memory.
Local Open Scope Z_scope.
Import Dsm.

(** [pageKey{arrayID, pageID}] *)
Abbreviation pageKey := (string * Z)%type.

(** [GetPageOwner] and [SetPageOwner] of [Array]. *)
Definition GetPageOwner (a : Array) (pageID : Z) : option string :=
  PageMapping a !! pageID.

Definition SetPageOwner (a : Array) (pageID : Z) (nodeID : string) : Array :=
  {| AID := AID a; Length := Length a; NumPages := NumPages a;
     PageMapping := <[pageID := nodeID]> (PageMapping a);
     AVersion := AVersion a |}.

(** [MemoryManager]: [arrays] holds the [*Array] descriptors, [pages]
    the local [*Page]s; [localNode] is [mm.bus.LocalNode().ID]. The
    mutex and the logger are not part of the sequential model. *)
Record MemoryManager : Type := {
  arrays : gmap string Array;
  localNode : string;
  pages : gmap pageKey Page
}.

Definition NewMemoryManager (localNode : string) : MemoryManager :=
  {| arrays := ∅; localNode := localNode; pages := ∅ |}.

Definition with_arrays (mm : MemoryManager) (m : gmap string Array)
  : MemoryManager :=
  {| arrays := m; localNode := localNode mm; pages := pages mm |}.

Definition with_pages (mm : MemoryManager) (m : gmap pageKey Page)
  : MemoryManager :=
  {| arrays := arrays mm; localNode := localNode mm; pages := m |}.

(** [CreateArray]; [uuid] is the string [uuid.New()] produces inside
    [NewArray]. The error returned is always [nil]. *)
Definition CreateArray (mm : MemoryManager) (uuid : string) (length : Z)
  : MemoryManager * Array :=
  let array := NewArray uuid length in
  (with_arrays mm (<[AID array := array]> (arrays mm)), array).

Definition GetArray (mm : MemoryManager) (arrayID : string) : result Array :=
  match arrays mm !! arrayID with
  | None => Failed (ErrArrayNotFound arrayID)
  | Some array => Done array
  end.

Definition DeleteArray (mm : MemoryManager) (arrayID : string)
  : MemoryManager * result unit :=
  match arrays mm !! arrayID with
  | None => (mm, Failed (ErrArrayNotFound arrayID))
  | Some _ => (with_arrays mm (delete arrayID (arrays mm)), Done tt)
  end.

(** [array.SetPageOwner(pageID, nodeID)] on the descriptor the manager
    holds: the caller and the manager share the [*Array]. *)
Definition SetPageOwnerOf (mm : MemoryManager) (arrayID : string)
    (pageID : Z) (nodeID : string) : MemoryManager :=
  with_arrays mm
    (alter (λ a, SetPageOwner a pageID nodeID) arrayID (arrays mm)).

Definition getLocalPage (mm : MemoryManager) (arrayID : string)
    (pageID version : Z) : MemoryManager * result Page :=
  let key := (arrayID, pageID) in
  match pages mm !! key with
  | Some page => (mm, Done page)
  | None =>
      let page := NewPage pageID version in
      (with_pages mm (<[key := page]> (pages mm)), Done page)
  end.

(** [requestRemotePage]: the body builds a new page and returns it. *)
Definition requestRemotePage (mm : MemoryManager) (ownerID arrayID : string)
    (pageID version : Z) : result Page :=
  Done (NewPage pageID version).

Definition RequestPage (mm : MemoryManager) (arrayID : string)
    (pageID version : Z) : MemoryManager * result Page :=
  match GetArray mm arrayID with
  | Failed f => (mm, Failed (ErrWrap "failed to get array" f))
  | Crashed c => (mm, Crashed c)
  | Done array =>
      match GetPageOwner array pageID with
      | None => (mm, Failed (ErrPageOwnerNotFound pageID arrayID))
      | Some ownerID =>
          if bool_decide (ownerID = localNode mm)
          then getLocalPage mm arrayID pageID version
          else
            match requestRemotePage mm ownerID arrayID pageID version with
            | Done page => (mm, Done page)
            | Failed f =>
                (mm, Failed (ErrWrap "failed to request remote page" f))
            | Crashed c => (mm, Crashed c)
            end
      end
  end.

Definition storePage (mm : MemoryManager) (arrayID : string) (pageID : Z)
    (page : Page) : MemoryManager * result unit :=
  (with_pages mm (<[(arrayID, pageID) := page]> (pages mm)), Done tt).

(** [Cluster] of [pkg/holocompute]: a pointer to the memory manager,
    [nil] in the cluster [Connect] returns. *)
Record Cluster : Type := { memoryManager : option MemoryManager }.

(** [sharedArray.Get(i)] of [pkg/holocompute/array.go]. The handle is
    the pair of pointers [sa.cluster] and [sa.array], given here as
    [cluster] and as the [array] field of [sa]; both are [nil] in the
    handle [NewSharedArray] returns. The test [i < 0 || i >= Length]
    reads [sa.array] only when [i] is not negative; the manager is
    reached through [sa.cluster.memoryManager], and [RequestPage] on a
    [nil] manager stops at its first lock. The page asked for is page 0
    at the version of the array. *)
Definition SharedGet (cluster : option Cluster) (sa : Api.sharedArray)
    (i : Z) : option Cluster * result Page :=
  if i <? 0 then (cluster, Failed (ErrIndexOutOfBounds i))
  else
    match Api.array sa with
    | None => (cluster, Crashed (Runtime PanicNilDereference))
    | Some array =>
        if Length array <=? i
        then (cluster, Failed (ErrIndexOutOfBounds i))
        else
          match cluster with
          | None => (cluster, Crashed (Runtime PanicNilDereference))
          | Some c =>
              match memoryManager c with
              | None => (cluster, Crashed (Runtime PanicNilDereference))
              | Some mm =>
                  let '(mm', r) :=
                    RequestPage mm (AID array) 0 (AVersion array) in
                  (Some {| memoryManager := Some mm' |},
                   match r with
                   | Failed f =>
                       Failed (ErrWrap "failed to request page" f)
                   | r' => r'
                   end)
              end
          end
    end.

(** A manager on node-1 holding an array of 100000 elements whose page
    0 is owned by node-1 and stored locally with version 5, and the
    cluster and the handle built on them. *)
Definition example_manager : MemoryManager :=
  (storePage
     (SetPageOwnerOf
        (CreateArray (NewMemoryManager "node-1") "array-1" 100000).1
        "array-1" 0 "node-1")
     "array-1" 0 (NewPage 0 5)).1.
Definition example_cluster : option Cluster :=
  Some {| memoryManager := Some example_manager |}.
Definition example_handle : Api.sharedArray :=
  {| Api.array := Some (NewArray "array-1" 100000) |}.
End Memory.

(** ** Runs of the lease manager with fresh lease IDs *)

Module LeaseRuns.
Import Lease.

(** [uuid] is the ID of no lease in the table. *)
Definition fresh_ID (m : gmap leaseKey Lease) (uuid : string) : Prop :=
  ∀ k l, m !! k = Some l → ID l ≠ uuid.

Definition fresh_op (lm : LeaseManager) (o : op) : Prop :=
  match o with
  | OpAcquire _ uuid _ _ _ _ _ => fresh_ID (leases lm) uuid
  | _ => True
  end.

(** A run in which every [uuid.New()] differs from the IDs of the leases
    in the table at that moment. *)
Fixpoint fresh_run (lm : LeaseManager) (ops : list op) : Prop :=
  match ops with
  | [] => True
  | o :: ops' => fresh_op lm o ∧ fresh_run (run_op lm o) ops'
  end.
End LeaseRuns.

(** ** Entries of the page cache and their keys *)

Module CacheEntries.
Import Cache.

(** Every entry of the index is stored under the key it carries, so
    that [delete(pc.cache, entry.key)] removes the entry of the element
    taken from a list. *)
Definition entries_keyed (pc : PageCache) : Prop :=
  ∀ k e, cache pc !! k = Some e → key e = k.
End CacheEntries.

(* ===================================================================== *)
(** * Part II: properties                                                 *)
(* ===================================================================== *)

(** ** Machine integers and byte strings *)

Section IntFacts.
Local Open Scope Z_scope.
Import GoInt.

Lemma wrap_small (z : Z) : MinInt <= z <= MaxInt -> wrap z = z.
Proof.
  unfold wrap, MinInt, MaxInt, int_bits. intros H.
  rewrite Z.mod_small; lia.
Qed.

Lemma wrap_range (z : Z) : MinInt <= wrap z <= MaxInt.
Proof.
  unfold wrap, MinInt, MaxInt, int_bits.
  pose proof (Z.mod_pos_bound (z + 2 ^ (64 - 1)) (2 ^ 64)). lia.
Qed.

Lemma int64_uint64_roundtrip (v : Z) :
  - 2 ^ 63 <= v < 2 ^ 63 ->
  int64_of_uint64 (uint64_of_int64 v) = v.
Proof.
  intros H. unfold int64_of_uint64, uint64_of_int64.
  change (2 ^ 64) with 18446744073709551616 in *.
  change (2 ^ 63) with 9223372036854775808 in *.
  destruct (Z.ltb_spec (v mod 18446744073709551616) 9223372036854775808);
    Z.div_mod_to_equations; lia.
Qed.

Lemma uint64_range (v : Z) : 0 <= uint64_of_int64 v < 2 ^ 64.
Proof. unfold uint64_of_int64. apply Z.mod_pos_bound. lia. Qed.

(** Or-ing a value below [2^n] with a value shifted left by [n] adds
    them: the two occupy disjoint bits. *)
Lemma lor_shiftl_add (x y n : Z) :
  0 <= n -> 0 <= x < 2 ^ n -> Z.lor x (Z.shiftl y n) = x + y * 2 ^ n.
Proof.
  intros Hn Hx. rewrite Z.shiftl_mul_pow2 by assumption.
  assert (Hland : Z.land x (y * 2 ^ n) = 0).
  { apply Z.bits_inj'. intros k Hk.
    rewrite Z.land_spec, Z.bits_0.
    destruct (Z.lt_ge_cases k n) as [Hlt | Hge].
    - rewrite Z.mul_pow2_bits_low by assumption. apply andb_false_r.
    - destruct (Z.eq_dec x 0) as [-> | Hx0].
      + now rewrite Z.bits_0.
      + rewrite Z.bits_above_log2; [reflexivity | lia |].
        apply Z.lt_le_trans with n; [| assumption].
        apply Z.log2_lt_pow2; lia. }
  rewrite <- Z.lxor_lor by assumption.
  symmetry. now apply Z.add_nocarry_lxor.
Qed.

(** One more byte of a little-endian decoding. *)
Lemma lor_next_byte (u n m : Z) :
  0 <= n -> m = n + 8 ->
  Z.lor (u mod 2 ^ n) (Z.shiftl (byte_of (Z.shiftr u n)) n)
  = u mod 2 ^ m.
Proof.
  intros Hn ->.
  assert (Hp : 0 < 2 ^ n) by (apply Z.pow_pos_nonneg; lia).
  rewrite lor_shiftl_add;
    [| assumption | apply Z.mod_pos_bound; assumption].
  unfold byte_of. rewrite Z.shiftr_div_pow2 by assumption.
  rewrite Z.pow_add_r by lia.
  change (2 ^ 8) with 256.
  rewrite (Z.rem_mul_r u (2 ^ n) 256) by lia. ring.
Qed.

Lemma Uint64_bytes64 (u : Z) (rest : list Z) :
  0 <= u < 2 ^ 64 ->
  LittleEndian.Uint64 (LittleEndian.bytes64 u ++ rest) = Ok u.
Proof.
  intros Hu. unfold LittleEndian.bytes64, LittleEndian.Uint64.
  cbn [app]. f_equal.
  change (byte_of u) with (u mod 2 ^ 8).
  rewrite (lor_next_byte u 8 16) by lia.
  rewrite (lor_next_byte u 16 24) by lia.
  rewrite (lor_next_byte u 24 32) by lia.
  rewrite (lor_next_byte u 32 40) by lia.
  rewrite (lor_next_byte u 40 48) by lia.
  rewrite (lor_next_byte u 48 56) by lia.
  rewrite (lor_next_byte u 56 64) by lia.
  apply Z.mod_small. exact Hu.
Qed.
End IntFacts.

(** ** Page storage *)

Section StorageFacts.
Local Open Scope Z_scope.
Import GoInt Storage.

Lemma len_store (b bs : list Z) (lo : Z) :
  0 <= lo -> lo + len bs <= len b -> len (store b lo bs) = len b.
Proof.
  unfold len, store. intros H0 H1.
  rewrite !length_app, length_take, length_drop. lia.
Qed.

Lemma slice_store (b bs : list Z) (lo : Z) :
  0 <= lo -> lo + len bs <= len b ->
  slice (store b lo bs) lo (lo + len bs) = Ok bs.
Proof.
  intros H0 H1. unfold slice.
  rewrite len_store by assumption.
  assert (Hc : (0 <=? lo) && (lo <=? lo + len bs)
               && (lo + len bs <=? len b) = true).
  { unfold len in *. rewrite !andb_true_iff, !Z.leb_le. lia. }
  rewrite Hc. f_equal. unfold store, len in *.
  rewrite drop_app_length'; [| rewrite length_take; lia].
  replace (Z.to_nat (lo + Z.of_nat (length bs) - lo)) with (length bs)
    by lia.
  now rewrite take_app_length.
Qed.

(** The bounds test of the accessors, when the addition does not
    overflow. *)
Lemma bounds_test (b : list Z) (offset size : Z) :
  0 <= size -> MinInt <= offset -> offset + size <= MaxInt ->
  (offset <? 0) || (add offset size >? len b)
  = negb ((0 <=? offset) && (offset + size <=? len b)).
Proof.
  intros Hs Hlo Hhi. unfold add. rewrite wrap_small by lia.
  rewrite Z.gtb_ltb.
  destruct (Z.ltb_spec offset 0), (Z.leb_spec 0 offset),
           (Z.ltb_spec (len b) (offset + size)),
           (Z.leb_spec (offset + size) (len b)); try lia; reflexivity.
Qed.

(** An offset inside the buffer is read back as written. *)
Lemma storage_int64_roundtrip (ps : pageStorage) (offset v : Z) :
  0 <= offset -> offset + 8 <= len (data ps) -> len (data ps) <= MaxInt ->
  - 2 ^ 63 <= v < 2 ^ 63 ->
  (setInt64 ps offset v).2 = Ok tt
  /\ getInt64 (setInt64 ps offset v).1 offset = Ok v.
Proof.
  intros H0 H1 Hmax Hv.
  assert (Hmin : MinInt <= offset) by (unfold MinInt, int_bits; lia).
  assert (Htest : (offset <? 0) || (add offset 8 >? len (data ps)) = false).
  { rewrite bounds_test by lia.
    apply negb_false_iff, andb_true_iff. rewrite !Z.leb_le. lia. }
  assert (Hadd : add offset 8 = offset + 8).
  { unfold add. apply wrap_small. lia. }
  unfold setInt64. rewrite Htest, Hadd.
  unfold slice.
  assert (Hc : (0 <=? offset) && (offset <=? offset + 8)
               && (offset + 8 <=? len (data ps)) = true).
  { rewrite !andb_true_iff, !Z.leb_le. lia. }
  rewrite Hc.
  replace (Z.to_nat (offset + 8 - offset)) with 8%nat by lia.
  assert (Hlen : (8 <= length (drop (Z.to_nat offset) (data ps)))%nat).
  { rewrite length_drop. unfold len in H1. lia. }
  destruct (drop (Z.to_nat offset) (data ps))
    as [|c0 [|c1 [|c2 [|c3 [|c4 [|c5 [|c6 [|c7 tl]]]]]]]];
    cbn [length] in Hlen; try lia.
  cbn [take fst snd]. split; [reflexivity |].
  unfold getInt64. cbn [data].
  set (bs := LittleEndian.bytes64 (uint64_of_int64 v)).
  assert (Hbs : len bs = 8) by reflexivity.
  assert (Hsl : slice (store (data ps) offset bs) offset (offset + 8)
                = Ok bs).
  { rewrite <- Hbs. apply slice_store; lia. }
  rewrite len_store by lia.
  rewrite Htest, Hadd, Hsl.
  subst bs. rewrite <- (app_nil_r (LittleEndian.bytes64 _)).
  rewrite Uint64_bytes64 by apply uint64_range.
  now rewrite int64_uint64_roundtrip.
Qed.

(** Wherever the addition [offset+8] does not overflow, an offset
    outside the buffer is refused and the storage is left as it was. *)
Lemma storage_int64_rejected (ps : pageStorage) (offset v : Z) :
  MinInt <= offset -> offset + 8 <= MaxInt ->
  offset < 0 \/ offset + 8 > len (data ps) ->
  getInt64 ps offset = Err (ErrOutOfBounds offset)
  /\ setInt64 ps offset v = (ps, Err (ErrOutOfBounds offset)).
Proof.
  intros Hlo Hhi Hout.
  assert (Htest : (offset <? 0) || (add offset 8 >? len (data ps)) = true).
  { rewrite bounds_test by lia.
    apply negb_true_iff, andb_false_iff. rewrite !Z.leb_gt. lia. }
  unfold getInt64, setInt64. now rewrite Htest.
Qed.
End StorageFacts.

(** ** Pages: element accessors *)

Section PageFacts.
Local Open Scope Z_scope.
Import GoInt Storage Dsm.

Lemma len_repeat (x n : Z) : 0 <= n -> len (repeat x (Z.to_nat n)) = n.
Proof. intros H. unfold len. rewrite repeat_length. lia. Qed.

Lemma NewPage_storage_len (id version : Z) :
  len (data (storage (NewPage id version))) = PageSize.
Proof. cbn [NewPage storage newPageStorage data]. now apply len_repeat. Qed.

(** C7 (code defect). The bounds test [offset < 0 || offset+8 > len]
    is computed in machine arithmetic. For element index [2^60 - 1] the
    offset is [2^63 - 8], far beyond the page; [offset+8] wraps to the
    most negative integer, the test lets the access through, and both
    accessors stop in a slice-bounds panic instead of returning the
    out-of-bounds error. For element index [2^61] the product
    [elementIndex * 8] wraps to offset 0: the write reports success and
    lands on element 0 of the page. *)
Theorem C7_int64_bounds_test_overflows :
  let p := NewPage 0 1 in
  (SetInt64 p (2 ^ 60 - 1) 42).2
    = Panicked (PanicSliceBounds (2 ^ 63 - 8) (- 2 ^ 63))
  /\ GetInt64 p (2 ^ 60 - 1)
    = Panicked (PanicSliceBounds (2 ^ 63 - 8) (- 2 ^ 63))
  /\ (SetInt64 p (2 ^ 61) 42).2 = Ok tt
  /\ GetInt64 (SetInt64 p (2 ^ 61) 42).1 0 = Ok 42.
Proof. cbv zeta. repeat split; vm_compute; reflexivity. Qed.

(** C5 (code defect). [setFloat32] stores [uint32(value)], the value
    with its fraction cut off, and [getFloat32] returns
    [float32(Uint32(...))], that integer converted back. For the
    binary32 value 1.5 the page receives the bytes 1,0,0,0 where the
    little-endian IEEE-754 pattern is 0,0,192,63, and the read returns
    1.0. This holds whatever the platform does for values that do not
    fit [uint32]. *)
Theorem C5_float32_stored_as_truncated_integer
    (unrep : Float32.float32 -> Z) :
  let p := NewPage 0 1 in
  let v := S754_finite false 12582912 (-23) in
  let p' := (SetFloat32 unrep p 0 v).1 in
  valid_binary Float32.prec Float32.emax v = true
  /\ (SetFloat32 unrep p 0 v).2 = Ok tt
  /\ take 4 (data (storage p')) = [1; 0; 0; 0]
  /\ (LittleEndian.bytes32 <$> Float32.spec_ieee_bits v)
     = Some [0; 0; 192; 63]
  /\ GetFloat32 p' 0 = Ok (S754_finite false 8388608 (-23))
  /\ GetFloat32 p' 0 <> Ok v.
Proof.
  cbv zeta. repeat split; try (vm_compute; reflexivity).
  vm_compute. discriminate.
Qed.

(** C8 (code defect). [NewArray] computes
    [(length*8 + PageSize - 1) / PageSize] in machine arithmetic. For
    [length = 2^60] the product wraps to the most negative integer and
    the page count comes out negative, while the ceiling of
    [2^60 * 8 / 65536] is [2^47]. *)
Theorem C8_page_count_wraps_for_huge_length (uuid : string) :
  NumPages (NewArray uuid (2 ^ 60)) = -140737488355327
  /\ (2 ^ 60 * 8 + (PageSize - 1)) / PageSize = 2 ^ 47
  /\ NumPages (NewArray uuid (2 ^ 60)) < 0.
Proof. vm_compute. repeat split; reflexivity. Qed.
End PageFacts.

(** ** Lease manager *)

Section LeaseFacts.
Local Open Scope Z_scope.
Import Lease.

Implicit Types (lm : LeaseManager) (m : gmap leaseKey Lease).
Implicit Types (l : Lease) (k : leaseKey).

(** *** The table is keyed by page *)

Lemma keyed_empty : keyed ∅.
Proof. intros k l H. by rewrite lookup_empty in H. Qed.

Lemma keyed_insert m l :
  keyed m → keyed (<[(ArrayID l, PageID l) := l]> m).
Proof.
  intros Hm k l'. rewrite lookup_insert_Some.
  intros [[<- <-] | [_ H]]; [done | by apply Hm].
Qed.

Lemma keyed_delete m k : keyed m → keyed (delete k m).
Proof.
  intros Hm k' l. rewrite lookup_delete_Some. intros [_ H]. by apply Hm.
Qed.

Lemma keyed_foldl_delete (ks : list leaseKey) m :
  keyed m → keyed (foldl (λ m k, delete k m) m ks).
Proof.
  revert m. induction ks as [|k ks IH]; intros m Hm; [done |].
  cbn [foldl]. by apply IH, keyed_delete.
Qed.

Lemma AcquireLease_keyed lm now uuid a p ty owner v :
  keyed (leases lm) → keyed (leases (AcquireLease lm now uuid a p ty owner v).1).
Proof.
  intros Hm. unfold AcquireLease.
  pose proof (keyed_insert (leases lm)
    {| ID := uuid; ArrayID := a; PageID := p; Type_ := ty; Owner := owner;
       ExpiresAt := now + ttl lm; Version := v |} Hm) as Hnew.
  destruct (leases lm !! (a, p)) as [ex|] eqn:Hex; [| exact Hnew].
  repeat case_match; try done.
  pose proof (Hm _ _ Hex) as Hk.
  pose proof (keyed_insert (leases lm) (set_ExpiresAt ex (now + ttl lm)) Hm)
    as Hext.
  cbn [set_ExpiresAt ArrayID PageID] in Hext. by rewrite <- Hk in Hext.
Qed.

Lemma ReleaseLease_keyed lm leaseID :
  keyed (leases lm) → keyed (leases (ReleaseLease lm leaseID).1).
Proof.
  intros Hm. unfold ReleaseLease.
  destruct (find_by_ID (leases lm) leaseID) as [[k l]|]; [| done].
  by apply keyed_delete.
Qed.

Lemma RevokeLease_keyed lm a p :
  keyed (leases lm) → keyed (leases (RevokeLease lm a p).1).
Proof.
  intros Hm. unfold RevokeLease.
  destruct (leases lm !! (a, p)); [| done]. by apply keyed_delete.
Qed.

Lemma CleanupExpiredLeases_keyed lm now :
  keyed (leases lm) → keyed (leases (CleanupExpiredLeases lm now)).
Proof. intros Hm. by apply keyed_foldl_delete. Qed.

Lemma run_op_keyed lm o : keyed (leases lm) → keyed (leases (run_op lm o)).
Proof.
  destruct o; cbn [run_op];
    auto using AcquireLease_keyed, ReleaseLease_keyed, RevokeLease_keyed,
               CleanupExpiredLeases_keyed.
Qed.

Lemma foldl_run_op_keyed (ops : list op) lm :
  keyed (leases lm) → keyed (leases (foldl run_op lm ops)).
Proof.
  revert lm. induction ops as [|o ops IH]; intros lm Hm; [done |].
  cbn [foldl]. by apply IH, run_op_keyed.
Qed.

Lemma run_keyed ttl (ops : list op) : keyed (leases (run ttl ops)).
Proof. apply foldl_run_op_keyed, keyed_empty. Qed.

(** *** At most one lease per page *)

Lemma table_elem lm l : l ∈ table lm ↔ ∃ k, leases lm !! k = Some l.
Proof.
  unfold table. rewrite list_elem_of_fmap. split.
  - intros [[k l'] [-> H]]. exists k. by apply elem_of_map_to_list.
  - intros [k H]. exists (k, l). split; [done |].
    by apply elem_of_map_to_list.
Qed.

Lemma covering_unique lm a p l1 l2 :
  keyed (leases lm) → l1 ∈ table lm → l2 ∈ table lm →
  covers a p l1 = true → covers a p l2 = true → l1 = l2.
Proof.
  intros Hm [k1 H1]%table_elem [k2 H2]%table_elem Hc1 Hc2.
  unfold covers in *.
  apply andb_true_iff in Hc1 as [Ha1%bool_decide_eq_true Hp1%bool_decide_eq_true].
  apply andb_true_iff in Hc2 as [Ha2%bool_decide_eq_true Hp2%bool_decide_eq_true].
  pose proof (Hm _ _ H1) as E1. pose proof (Hm _ _ H2) as E2.
  rewrite Ha1, Hp1 in E1. rewrite Ha2, Hp2 in E2. subst k1 k2.
  congruence.
Qed.

Lemma filter_covering_short (kvs : list (leaseKey * Lease)) a p
    (g : Lease → bool) :
  NoDup kvs.*1 →
  (∀ k l, (k, l) ∈ kvs → k = (ArrayID l, PageID l)) →
  (length (List.filter (λ l, covers a p l && g l) kvs.*2) ≤ 1)%nat.
Proof.
  induction kvs as [|[k l] kvs IH]; intros Hnd Hk; [cbn; lia |].
  cbn [fmap list_fmap fst snd List.filter] in *.
  apply NoDup_cons in Hnd as [Hnotin Hnd].
  assert (Hk' : ∀ k l, (k, l) ∈ kvs → k = (ArrayID l, PageID l)).
  { intros k' l' H. apply Hk. by right. }
  specialize (IH Hnd Hk').
  destruct (covers a p l && g l) eqn:Hc; [| exact IH].
  assert (Hrest : List.filter (λ l, covers a p l && g l) kvs.*2 = []).
  { apply andb_true_iff in Hc as [Hc _].
    destruct (List.filter _ kvs.*2) as [|l' tl] eqn:Hf; [done |].
    exfalso.
    assert (Hin : In l' (List.filter (λ l, covers a p l && g l) kvs.*2))
      by (rewrite Hf; by left).
    apply List.filter_In in Hin as [Hin Hc'].
    apply andb_true_iff in Hc' as [Hc' _].
    apply list_elem_of_In, list_elem_of_fmap in Hin as [[k' l''] [-> Hin]].
    cbn [snd] in Hc'.
    pose proof (Hk' _ _ Hin) as E'.
    pose proof (Hk k l ltac:(by left)) as E.
    unfold covers in Hc, Hc'.
    apply andb_true_iff in Hc as [Ha%bool_decide_eq_true Hp%bool_decide_eq_true].
    apply andb_true_iff in Hc' as [Ha'%bool_decide_eq_true Hp'%bool_decide_eq_true].
    apply Hnotin. apply list_elem_of_fmap. exists (k', l''). split; [| done].
    cbn [fst]. congruence. }
  rewrite Hrest. cbn. lia.
Qed.

(** C1. In every state the manager reaches from an empty table through
    AcquireLease, ReleaseLease, RevokeLease and CleanupExpiredLeases
    calls (any arguments, any clock readings), and for every page and
    instant, the table holds at most one unexpired Write lease for the
    page, and it does not hold an unexpired Write lease together with an
    unexpired Read lease for it. *)
Theorem C1_lease_exclusivity (ttl : Z) (ops : list op) (now : Z)
    (a : string) (p : Z) :
  (length (live (run ttl ops) now a p WriteLease) ≤ 1)%nat
  ∧ (live (run ttl ops) now a p WriteLease = []
     ∨ live (run ttl ops) now a p ReadLease = []).
Proof.
  pose proof (run_keyed ttl ops) as Hm.
  set (lm := run ttl ops) in *. split.
  - unfold live, table.
    pose proof (filter_covering_short (map_to_list (leases lm)) a p
      (λ l, unexpired now l && bool_decide (Type_ l = WriteLease))
      (NoDup_fst_map_to_list _)) as H.
    cbn beta in H.
    erewrite List.filter_ext; [apply H |].
    + intros k l Hin. apply Hm. by apply elem_of_map_to_list.
    + intros l. cbn beta. by rewrite andb_assoc.
  - destruct (live lm now a p WriteLease) as [|w ws] eqn:Hw; [by left |].
    destruct (live lm now a p ReadLease) as [|r rs] eqn:Hr; [by right |].
    exfalso.
    assert (Hwin : In w (live lm now a p WriteLease)) by (rewrite Hw; by left).
    assert (Hrin : In r (live lm now a p ReadLease)) by (rewrite Hr; by left).
    unfold live in Hwin, Hrin.
    apply List.filter_In in Hwin as [Hwin Hwc].
    apply List.filter_In in Hrin as [Hrin Hrc].
    apply andb_true_iff in Hwc as [Hwc Hwt%bool_decide_eq_true].
    apply andb_true_iff in Hwc as [Hwc _].
    apply andb_true_iff in Hrc as [Hrc Hrt%bool_decide_eq_true].
    apply andb_true_iff in Hrc as [Hrc _].
    apply list_elem_of_In in Hwin, Hrin.
    pose proof (covering_unique lm a p w r Hm Hwin Hrin Hwc Hrc) as ->.
    rewrite Hwt in Hrt. unfold WriteLease, ReadLease in Hrt. discriminate.
Qed.
End LeaseFacts.

Section LeaseCalls.
Local Open Scope Z_scope.
Import Lease.

Implicit Types (lm : LeaseManager) (m : gmap leaseKey Lease).
Implicit Types (l : Lease) (k : leaseKey).

(** *** Searching the table by lease ID *)

Lemma find_by_ID_Some m leaseID k l :
  find_by_ID m leaseID = Some (k, l) → m !! k = Some l ∧ ID l = leaseID.
Proof.
  unfold find_by_ID. intros [Hin Hid]%List.find_some.
  cbn [snd] in Hid. apply bool_decide_eq_true in Hid.
  split; [| done]. by apply elem_of_map_to_list, list_elem_of_In.
Qed.

Lemma find_by_ID_None m leaseID :
  find_by_ID m leaseID = None ↔ ∀ k l, m !! k = Some l → ID l ≠ leaseID.
Proof.
  unfold find_by_ID. split.
  - intros Hnone k l Hl Hid.
    pose proof (List.find_none _ _ Hnone (k, l)) as H.
    cbn [snd] in H. rewrite bool_decide_eq_false in H. apply H; [| done].
    by apply list_elem_of_In, elem_of_map_to_list.
  - intros Hall.
    destruct (List.find _ _) as [[k l]|] eqn:Hf; [| done].
    apply List.find_some in Hf as [Hin Hid]. cbn [snd] in Hid.
    apply bool_decide_eq_true in Hid.
    apply list_elem_of_In, elem_of_map_to_list in Hin.
    by destruct (Hall _ _ Hin).
Qed.

Lemma find_by_ID_unique m leaseID k l :
  unique_IDs m → m !! k = Some l → ID l = leaseID →
  find_by_ID m leaseID = Some (k, l).
Proof.
  intros Hu Hl Hid.
  destruct (find_by_ID m leaseID) as [[k' l']|] eqn:Hf.
  - apply find_by_ID_Some in Hf as [Hl' Hid'].
    assert (k' = k) as -> by (eapply Hu; [done | done | congruence]).
    congruence.
  - exfalso. rewrite find_by_ID_None in Hf. by eapply Hf.
Qed.

(** *** The sweep *)

Lemma lookup_foldl_delete (ks : list leaseKey) m k :
  foldl (λ m k, delete k m) m ks !! k
  = if decide (k ∈ ks) then None else m !! k.
Proof.
  revert m. induction ks as [|k' ks IH]; intros m; [done |].
  cbn [foldl]. rewrite IH.
  destruct (decide (k ∈ ks)) as [Hin | Hnin].
  - rewrite decide_True; [done | by right].
  - destruct (decide (k = k')) as [-> | Hne].
    + rewrite decide_True by left. apply lookup_delete_eq.
    + rewrite decide_False.
      * by apply lookup_delete_ne.
      * intros [? | ?]%elem_of_cons; done.
Qed.

Lemma elem_of_expired_keys m now k :
  k ∈ expired_keys m now
  ↔ ∃ l, m !! k = Some l ∧ After now (ExpiresAt l) = true.
Proof.
  unfold expired_keys. rewrite list_elem_of_fmap. split.
  - intros [[k' l] [-> Hin]]. cbn [fst].
    apply list_elem_of_In, List.filter_In in Hin as [Hin Hexp].
    exists l. split; [| done].
    by apply elem_of_map_to_list, list_elem_of_In.
  - intros [l [Hl Hexp]]. exists (k, l). split; [done |].
    apply list_elem_of_In, List.filter_In. split; [| done].
    by apply list_elem_of_In, elem_of_map_to_list.
Qed.

Lemma CleanupExpiredLeases_lookup lm now k :
  leases (CleanupExpiredLeases lm now) !! k
  = leases lm !! k ≫= λ l, if After now (ExpiresAt l) then None else Some l.
Proof.
  cbn [CleanupExpiredLeases with_leases leases].
  rewrite lookup_foldl_delete.
  destruct (decide (k ∈ expired_keys (leases lm) now)) as [Hin | Hnin].
  - apply elem_of_expired_keys in Hin as [l [-> Hexp]]. cbn. by rewrite Hexp.
  - destruct (leases lm !! k) as [l|] eqn:Hl; [| done]. cbn.
    destruct (After now (ExpiresAt l)) eqn:Hexp; [| done].
    exfalso. apply Hnin, elem_of_expired_keys. by exists l.
Qed.

(** C9. When lease IDs are unique in the table: ValidateLease answers
    with the expired error for a recorded lease whose ExpiresAt lies
    before the clock reading and with the lease itself otherwise; it
    answers not-found when no recorded lease has the ID. After
    CleanupExpiredLeases the table holds every lease that was not
    expired, unchanged, and none of those that were. *)
Theorem C9_validate_and_sweep lm now leaseID :
  unique_IDs (leases lm) →
  (∀ k l, leases lm !! k = Some l → ID l = leaseID →
     ValidateLease lm now leaseID
     = if ExpiresAt l <? now then Err (ErrLeaseExpired leaseID) else Ok l)
  ∧ ((∀ k l, leases lm !! k = Some l → ID l ≠ leaseID) →
     ValidateLease lm now leaseID = Err (ErrLeaseNotFound leaseID))
  ∧ (∀ k, leases (CleanupExpiredLeases lm now) !! k
          = leases lm !! k
            ≫= λ l, if ExpiresAt l <? now then None else Some l).
Proof.
  intros Hu. split; [| split].
  - intros k l Hl Hid. unfold ValidateLease.
    by rewrite (find_by_ID_unique _ _ k l Hu Hl Hid).
  - intros Hnone. unfold ValidateLease.
    by apply find_by_ID_None in Hnone as ->.
  - intros k. apply CleanupExpiredLeases_lookup.
Qed.

Lemma unique_IDs_singleton k l : unique_IDs {[k := l]}.
Proof.
  intros k1 k2 l1 l2 [-> _]%lookup_singleton_Some [-> _]%lookup_singleton_Some.
  done.
Qed.

Lemma held_write_leases :
  leases held_write
  = {[ ("array-1", 0) :=
       {| ID := "lease-1"; ArrayID := "array-1"; PageID := 0;
          Type_ := WriteLease; Owner := "client-1"; ExpiresAt := 10;
          Version := 1 |} ]}.
Proof. reflexivity. Qed.

Lemma held_read_leases :
  leases held_read
  = {[ ("array-1", 0) :=
       {| ID := "lease-1"; ArrayID := "array-1"; PageID := 0;
          Type_ := ReadLease; Owner := "client-1"; ExpiresAt := 10;
          Version := 1 |} ]}.
Proof. reflexivity. Qed.

Lemma C9_validate_and_sweep_witness :
  unique_IDs (leases held_write)
  ∧ ValidateLease held_write 100 "lease-1" = Err (ErrLeaseExpired "lease-1")
  ∧ ValidateLease held_write 100 "lease-2" = Err (ErrLeaseNotFound "lease-2")
  ∧ leases (CleanupExpiredLeases held_write 100) !! ("array-1", 0) = None.
Proof.
  assert (Hu : unique_IDs (leases held_write)).
  { rewrite held_write_leases. apply unique_IDs_singleton. }
  split; [exact Hu |].
  destruct (C9_validate_and_sweep held_write 100 "lease-1" Hu)
    as [Hv [_ Hc]].
  destruct (C9_validate_and_sweep held_write 100 "lease-2" Hu)
    as [_ [Hn _]].
  split; [| split].
  - rewrite (Hv ("array-1", 0) _ eq_refl eq_refl). reflexivity.
  - apply Hn. rewrite held_write_leases.
    intros k l [_ <-]%lookup_singleton_Some. discriminate.
  - rewrite Hc. reflexivity.
Defined.

(** C10. When AcquireLease returns an error (each of its errors is a
    conflict with the lease recorded for the page), the manager after
    the call is the manager before it: no lease is added or removed and
    no field of a recorded lease changes. *)
Theorem C10_acquire_conflict_leaves_table lm now uuid a p ty owner v e :
  (AcquireLease lm now uuid a p ty owner v).2 = Err e →
  (AcquireLease lm now uuid a p ty owner v).1 = lm
  ∧ (e = ErrWriteLeaseExists p a ∨ e = ErrReadLeaseExists p a)
  ∧ ∃ l, leases lm !! (a, p) = Some l.
Proof.
  unfold AcquireLease.
  destruct (leases lm !! (a, p)) as [ex|] eqn:Hex; [| discriminate].
  repeat case_match; cbn [fst snd]; intros [= <-] || discriminate;
    eauto 6.
Qed.

Lemma C10_acquire_conflict_leaves_table_witness :
  (AcquireLease held_write 5 "lease-2" "array-1" 0 ReadLease "client-2" 1).2
    = Err (ErrWriteLeaseExists 0 "array-1")
  ∧ (AcquireLease held_write 5 "lease-2" "array-1" 0 ReadLease
       "client-2" 1).1 = held_write.
Proof.
  split; [reflexivity |].
  apply (C10_acquire_conflict_leaves_table held_write 5 "lease-2" "array-1"
           0 ReadLease "client-2" 1 (ErrWriteLeaseExists 0 "array-1")).
  reflexivity.
Defined.
End LeaseCalls.

Section LeaseSharingAndExpiry.
Local Open Scope Z_scope.
Import Lease.

(** C2 (code defect). AcquireLease never reads ExpiresAt. With a TTL of
    10, a Write lease taken at instant 0 is expired at instant 100:
    HasWriteLease reports no write lease and ValidateLease reports the
    lease expired, yet at that same instant AcquireLease refuses both a
    Read and a Write request for the page with the write-lease conflict.
    An expired Read lease refuses a Write request in the same way, and
    a Read request on it is answered with the old lease of the first
    owner, not with a fresh one. *)
Theorem C2_expired_lease_still_blocks :
  HasWriteLease held_write 100 "array-1" 0 = false
  ∧ ValidateLease held_write 100 "lease-1" = Err (ErrLeaseExpired "lease-1")
  ∧ (AcquireLease held_write 100 "lease-2" "array-1" 0 ReadLease
       "client-2" 1).2 = Err (ErrWriteLeaseExists 0 "array-1")
  ∧ (AcquireLease held_write 100 "lease-2" "array-1" 0 WriteLease
       "client-2" 1).2 = Err (ErrWriteLeaseExists 0 "array-1")
  ∧ ValidateLease held_read 100 "lease-1" = Err (ErrLeaseExpired "lease-1")
  ∧ (AcquireLease held_read 100 "lease-2" "array-1" 0 WriteLease
       "client-2" 1).2 = Err (ErrReadLeaseExists 0 "array-1")
  ∧ (AcquireLease held_read 100 "lease-2" "array-1" 0 ReadLease
       "client-2" 1).2
    = Ok {| ID := "lease-1"; ArrayID := "array-1"; PageID := 0;
            Type_ := ReadLease; Owner := "client-1"; ExpiresAt := 110;
            Version := 1 |}.
Proof. repeat split; vm_compute; reflexivity. Qed.

(** C3, the claim as stated fails: client-1 holds an unexpired Read
    lease on the page and client-2 asks for a Read lease at instant 5.
    The call does not hand client-2 a lease of its own beside the one of
    client-1. *)
Lemma C3_per_requester_read_counterexample :
  ¬ spec_per_requester_read held_read 5 "lease-2" "array-1" 0 "client-2" 1.
Proof.
  unfold spec_per_requester_read.
  intros (mine & theirs & Hres & Hown & _).
  vm_compute in Hres. injection Hres as <-. cbn in Hown. discriminate.
Qed.

(** C3 (amended). When a requester holds an unexpired Read lease on a
    page, a Read request on that page by any requester, the holder or a
    different one, succeeds and returns that recorded lease, with its ID
    and Owner unchanged and its ExpiresAt set to now + ttl; the table
    afterwards holds this lease under the page, the same number of
    entries as before, and every other entry unchanged. *)
Theorem C3_read_request_extends_recorded_lease
    (lm : LeaseManager) (now : Z) (uuid a : string) (p : Z)
    (owner : string) (v : Z) (existing : Lease) :
  leases lm !! (a, p) = Some existing →
  Type_ existing = ReadLease →
  unexpired now existing = true →
  let r := AcquireLease lm now uuid a p ReadLease owner v in
  ∃ l, r.2 = Ok l
       ∧ ID l = ID existing ∧ Owner l = Owner existing
       ∧ Type_ l = ReadLease ∧ Version l = Version existing
       ∧ ExpiresAt l = now + ttl lm
       ∧ leases r.1 !! (a, p) = Some l
       ∧ size (leases r.1) = size (leases lm)
       ∧ ∀ k, k ≠ (a, p) → leases r.1 !! k = leases lm !! k.
Proof.
  intros Hex Hty _. cbv zeta. unfold AcquireLease. rewrite Hex, Hty.
  cbn [bool_decide decide_rel andb fst snd].
  rewrite !bool_decide_eq_false_2 by discriminate.
  rewrite !bool_decide_eq_true_2 by reflexivity.
  cbn [andb fst snd with_leases leases].
  eexists. split; [reflexivity |].
  cbn [set_ExpiresAt ID Owner Type_ Version ExpiresAt].
  repeat split; try done.
  - apply lookup_insert_eq.
  - apply map_size_insert_Some. by exists existing.
  - intros k Hk. by apply lookup_insert_ne.
Qed.

Lemma C3_read_request_extends_recorded_lease_witness :
  ∃ l, (AcquireLease held_read 5 "lease-2" "array-1" 0 ReadLease
          "client-2" 1).2 = Ok l
       ∧ ID l = "lease-1" ∧ Owner l = "client-1" ∧ ExpiresAt l = 15.
Proof.
  destruct (C3_read_request_extends_recorded_lease held_read 5 "lease-2"
              "array-1" 0 "client-2" 1
              {| ID := "lease-1"; ArrayID := "array-1"; PageID := 0;
                 Type_ := ReadLease; Owner := "client-1"; ExpiresAt := 10;
                 Version := 1 |} eq_refl eq_refl eq_refl)
    as (l & Hres & Hid & Hown & _ & _ & Hexp & _).
  exists l. repeat split; assumption.
Defined.
End LeaseSharingAndExpiry.

(** ** Page cache *)

Section CacheFacts.
Local Open Scope Z_scope.
Import Cache.

Implicit Types (pc : PageCache) (k : cacheKey) (e : cacheEntry).

Lemma ListRemove_not_elem k (l : list cacheKey) :
  k ∉ l → ListRemove k l = l.
Proof.
  unfold ListRemove. induction l as [|x l IH]; intros Hk; [done |].
  apply not_elem_of_cons in Hk as [Hne Hk].
  rewrite filter_cons_True by done. by rewrite IH.
Qed.

Lemma ListRemove_back k (l : list cacheKey) :
  NoDup (l ++ [k]) → ListRemove k (l ++ [k]) = l.
Proof.
  intros (_ & Hdisj & _)%NoDup_app.
  unfold ListRemove. rewrite filter_app.
  rewrite filter_cons_False, filter_nil, app_nil_r by (intros H; by apply H).
  apply ListRemove_not_elem. intros Hin. apply (Hdisj _ Hin). by left.
Qed.

Lemma elem_of_ListRemove k k' (l : list cacheKey) :
  k' ∈ ListRemove k l ↔ k' ≠ k ∧ k' ∈ l.
Proof. unfold ListRemove. by rewrite list_elem_of_filter. Qed.

Lemma NoDup_ListRemove k (l : list cacheKey) :
  NoDup l → NoDup (ListRemove k l).
Proof. apply NoDup_filter. Qed.

Lemma last_removelast (l : list cacheKey) k :
  last l = Some k → l = removelast l ++ [k].
Proof.
  intros [l' ->]%last_Some. by rewrite removelast_last.
Qed.

(** *** The invariant *)

Lemma wf_NewPageCache cap : wf (NewPageCache cap).
Proof.
  unfold wf, NewPageCache; cbn. repeat split; try apply NoDup_nil_2.
  - by intros ?%elem_of_nil.
  - intros (e & H & _). by rewrite lookup_empty in H.
  - by intros ?%elem_of_nil.
  - intros (e & H & _). by rewrite lookup_empty in H.
Qed.

Lemma wf_once_not_freq pc k e :
  wf pc → cache pc !! k = Some e → fromFreq e = false →
  k ∈ onceList pc ∧ k ∉ freqList pc.
Proof.
  intros (_ & _ & H1 & H2) Hk Hf. split.
  - apply H1. by exists e.
  - intros (e' & He' & Hf')%H2. congruence.
Qed.

Lemma wf_freq_not_once pc k e :
  wf pc → cache pc !! k = Some e → fromFreq e = true →
  k ∈ freqList pc ∧ k ∉ onceList pc.
Proof.
  intros (_ & _ & H1 & H2) Hk Hf. split.
  - apply H2. by exists e.
  - intros (e' & He' & Hf')%H1. congruence.
Qed.

Lemma wf_absent pc k :
  wf pc → cache pc !! k = None →
  (k ∉ onceList pc) ∧ (k ∉ freqList pc).
Proof.
  intros (_ & _ & H1 & H2) Hk. split.
  - intros (e & He & _)%H1. congruence.
  - intros (e & He & _)%H2. congruence.
Qed.

Lemma wf_touch pc k e0 e :
  wf pc → cache pc !! k = Some e0 → fromFreq e = fromFreq e0 →
  wf (touch pc k e).
Proof.
  intros Hwf Hk Hff. pose proof Hwf as (N1 & N2 & H1 & H2).
  unfold touch. destruct (fromFreq e) eqn:He; cbn [negb].
  - destruct (wf_freq_not_once pc k e0 Hwf Hk (eq_sym Hff)) as [Hin Hnin].
    unfold wf; cbn [onceList freqList cache]. repeat split.
    + done.
    + unfold MoveToFront. apply NoDup_cons. split.
      * rewrite elem_of_ListRemove. by intros [? _].
      * by apply NoDup_ListRemove.
    + intros (e' & He' & Hf')%H1.
      exists e'. split; [| done].
      rewrite lookup_insert_ne; [done |]. intros ->.
      apply Hnin, H1. eauto.
    + intros (e' & He' & Hf'). apply H1.
      apply lookup_insert_Some in He' as [[_ <-] | [_ He']]; [congruence |].
      eauto.
    + unfold MoveToFront. rewrite elem_of_cons, elem_of_ListRemove.
      intros [-> | [Hne Hin']].
      * exists e. by rewrite lookup_insert_eq.
      * apply H2 in Hin' as (e' & He' & Hf'). exists e'.
        by rewrite lookup_insert_ne.
    + unfold MoveToFront. rewrite elem_of_cons, elem_of_ListRemove.
      intros (e' & He' & Hf').
      apply lookup_insert_Some in He' as [[<- _] | [Hne He']]; [by left |].
      right. split; [done |]. apply H2. eauto.
  - destruct (wf_once_not_freq pc k e0 Hwf Hk) as [Hin Hnin]; [congruence |].
    unfold wf; cbn [onceList freqList cache]. repeat split.
    + by apply NoDup_ListRemove.
    + unfold PushFront. by apply NoDup_cons.
    + rewrite elem_of_ListRemove. intros [Hne (e' & He' & Hf')%H1].
      exists e'. by rewrite lookup_insert_ne.
    + rewrite elem_of_ListRemove. intros (e' & He' & Hf').
      apply lookup_insert_Some in He' as [[_ <-] | [Hne He']]; [done |].
      split; [done |]. apply H1. eauto.
    + unfold PushFront. rewrite elem_of_cons. intros [-> | Hin'].
      * eexists. by rewrite lookup_insert_eq.
      * apply H2 in Hin' as (e' & He' & Hf'). exists e'.
        rewrite lookup_insert_ne; [done |]. intros ->. apply Hnin, H2. eauto.
    + unfold PushFront. rewrite elem_of_cons. intros (e' & He' & Hf').
      apply lookup_insert_Some in He' as [[<- _] | [Hne He']]; [by left |].
      right. apply H2. eauto.
Qed.

(** Dropping one key from the index and from the list that holds it. *)
Lemma wf_drop pc k :
  wf pc →
  wf {| capacity := capacity pc; cache := delete k (cache pc);
        freqList := ListRemove k (freqList pc);
        onceList := ListRemove k (onceList pc) |}.
Proof.
  intros (N1 & N2 & H1 & H2).
  unfold wf; cbn [onceList freqList cache].
  repeat split; try by apply NoDup_ListRemove.
  - rewrite elem_of_ListRemove. intros [Hne (e & He & Hf)%H1].
    exists e. by rewrite lookup_delete_ne.
  - rewrite elem_of_ListRemove. intros (e & [Hne He]%lookup_delete_Some & Hf).
    split; [done |]. apply H1. eauto.
  - rewrite elem_of_ListRemove. intros [Hne (e & He & Hf)%H2].
    exists e. by rewrite lookup_delete_ne.
  - rewrite elem_of_ListRemove. intros (e & [Hne He]%lookup_delete_Some & Hf).
    split; [done |]. apply H2. eauto.
Qed.

Lemma evict_once pc victim :
  last (onceList pc) = Some victim →
  evict pc = {| capacity := capacity pc; cache := delete victim (cache pc);
                freqList := freqList pc;
                onceList := ListRemove victim (onceList pc) |}.
Proof.
  intros Hlast. unfold evict, Back, Len.
  destruct (onceList pc) as [|x l] eqn:Ho; [done |].
  cbn [length]. rewrite Hlast.
  by replace (0 <? Z.of_nat (S (length l))) with true
    by (symmetry; apply Z.ltb_lt; lia).
Qed.

Lemma evict_freq pc victim :
  onceList pc = [] → last (freqList pc) = Some victim →
  evict pc = {| capacity := capacity pc; cache := delete victim (cache pc);
                freqList := ListRemove victim (freqList pc);
                onceList := [] |}.
Proof.
  intros Ho Hlast. unfold evict, Back, Len. rewrite Ho. cbn [length].
  cbn [Z.of_nat Z.ltb Z.compare].
  destruct (freqList pc) as [|x l] eqn:Hf; [done |].
  cbn [length]. rewrite Hlast.
  by replace (0 <? Z.of_nat (S (length l))) with true
    by (symmetry; apply Z.ltb_lt; lia).
Qed.

Lemma evict_empty pc :
  onceList pc = [] → freqList pc = [] → evict pc = pc.
Proof. intros Ho Hf. unfold evict. by rewrite Ho, Hf. Qed.

Lemma wf_evict pc : wf pc → wf (evict pc).
Proof.
  intros Hwf. pose proof Hwf as (N1 & N2 & H1 & H2).
  destruct (last (onceList pc)) as [v|] eqn:Hl.
  - rewrite (evict_once pc v Hl).
    assert (Hv : v ∈ onceList pc) by by apply last_Some_elem_of.
    apply H1 in Hv as (e & He & Hf).
    destruct (wf_once_not_freq pc v e Hwf He Hf) as [_ Hnin].
    rewrite <- (ListRemove_not_elem v (freqList pc) Hnin) at 1.
    by apply wf_drop.
  - apply last_None in Hl.
    destruct (last (freqList pc)) as [v|] eqn:Hl'.
    + rewrite (evict_freq pc v Hl Hl').
      replace (@nil cacheKey) with (ListRemove v (onceList pc))
        by by rewrite Hl.
      by apply wf_drop.
    + apply last_None in Hl'. by rewrite evict_empty.
Qed.

Lemma wf_Get pc a p : wf pc → wf (Get pc a p).1.
Proof.
  intros Hwf. unfold Get.
  destruct (cache pc !! (a, p)) as [e|] eqn:He; [| done].
  by eapply wf_touch.
Qed.

Lemma wf_Put pc a p pg : wf pc → wf (Put pc a p pg).
Proof.
  intros Hwf. unfold Put.
  destruct (cache pc !! (a, p)) as [e|] eqn:He.
  - by eapply wf_touch.
  - assert (Hwf' : wf {| capacity := capacity pc;
                         cache := <[(a, p) := {| key := (a, p); page := pg;
                                                 fromFreq := false |}]>
                                    (cache pc);
                         freqList := freqList pc;
                         onceList := PushFront (a, p) (onceList pc) |}).
    { pose proof Hwf as (N1 & N2 & H1 & H2).
      destruct (wf_absent pc _ Hwf He) as [Hn1 Hn2].
      unfold wf, PushFront; cbn [onceList freqList cache]. repeat split.
      - by apply NoDup_cons.
      - done.
      - rewrite elem_of_cons. intros [-> | Hin].
        + eexists. by rewrite lookup_insert_eq.
        + apply H1 in Hin as (e' & He' & Hf'). exists e'.
          rewrite lookup_insert_ne; [done |]. intros <-. congruence.
      - rewrite elem_of_cons. intros (e' & He' & Hf').
        apply lookup_insert_Some in He' as [[<- _] | [Hne He']]; [by left |].
        right. apply H1. eauto.
      - intros (e' & He' & Hf')%H2. exists e'.
        rewrite lookup_insert_ne; [done |]. intros <-. congruence.
      - intros (e' & He' & Hf').
        apply lookup_insert_Some in He' as [[_ <-] | [Hne He']]; [done |].
        apply H2. eauto. }
    cbn [capacity cache]. case_match; [by apply wf_evict | done].
Qed.

Lemma wf_Remove pc a p : wf pc → wf (Remove pc a p).
Proof.
  intros Hwf. unfold Remove.
  destruct (cache pc !! (a, p)) as [e|] eqn:He; [| done].
  destruct (fromFreq e) eqn:Hf.
  - destruct (wf_freq_not_once pc _ e Hwf He Hf) as [_ Hnin].
    rewrite <- (ListRemove_not_elem (a, p) (onceList pc) Hnin) at 1.
    by apply wf_drop.
  - destruct (wf_once_not_freq pc _ e Hwf He Hf) as [_ Hnin].
    rewrite <- (ListRemove_not_elem (a, p) (freqList pc) Hnin) at 1.
    by apply wf_drop.
Qed.

Lemma wf_run_op pc o : wf pc → wf (run_op pc o).
Proof.
  destruct o; cbn [run_op]; auto using wf_Get, wf_Put, wf_Remove.
Qed.

Lemma wf_foldl_run_op (ops : list op) pc :
  wf pc → wf (foldl run_op pc ops).
Proof.
  revert pc. induction ops as [|o ops IH]; intros pc Hwf; [done |].
  cbn [foldl]. by apply IH, wf_run_op.
Qed.

Lemma wf_run cap (ops : list op) : wf (run cap ops).
Proof. apply wf_foldl_run_op, wf_NewPageCache. Qed.
Lemma capacity_run_op pc o : capacity (run_op pc o) = capacity pc.
Proof.
  destruct o; cbn [run_op]; unfold Get, Put, Remove, touch, evict;
    repeat case_match; reflexivity.
Qed.

Lemma capacity_foldl_run_op (ops : list op) pc :
  capacity (foldl run_op pc ops) = capacity pc.
Proof.
  revert pc. induction ops as [|o ops IH]; intros pc; [done |].
  cbn [foldl]. by rewrite IH, capacity_run_op.
Qed.

Lemma capacity_run cap (ops : list op) : capacity (run cap ops) = cap.
Proof. unfold run. by rewrite capacity_foldl_run_op. Qed.
End CacheFacts.

Section CacheEviction.
Local Open Scope Z_scope.
Import Cache.

Lemma keys_evict_once pc victim :
  last (onceList pc) = Some victim →
  keys (evict pc) = keys pc ∖ {[victim]}.
Proof.
  intros H. rewrite (evict_once pc victim H). unfold keys; cbn [cache].
  apply dom_delete_L.
Qed.

(** C4. In every state the cache reaches from [NewPageCache] through
    Get, Put and Remove calls: [evict] removes the back entry of the
    once list when that list is not empty, leaving the frequent list
    alone, and removes the back entry of the frequent list only when the
    once list is empty; a Put of a page that is not cached, which brings
    the number of entries above the capacity, evicts the back entry of
    the once list, the new page standing at its front. Pages 0, 1, 2 put
    into an empty cache of capacity 2 leave pages 1 and 2; when page 0
    is touched a second time before page 2 is put, pages 0 and 2 remain
    and page 1 is evicted. *)
Theorem C4_2Q_eviction_order (cap : Z) (ops : list op) :
  (∀ victim, last (onceList (run cap ops)) = Some victim →
     onceList (evict (run cap ops)) = removelast (onceList (run cap ops))
     ∧ freqList (evict (run cap ops)) = freqList (run cap ops)
     ∧ cache (evict (run cap ops)) = delete victim (cache (run cap ops)))
  ∧ (onceList (run cap ops) = [] →
     ∀ victim, last (freqList (run cap ops)) = Some victim →
       freqList (evict (run cap ops)) = removelast (freqList (run cap ops))
       ∧ onceList (evict (run cap ops)) = []
       ∧ cache (evict (run cap ops)) = delete victim (cache (run cap ops)))
  ∧ (∀ a p pg,
       cache (run cap ops) !! (a, p) = None →
       Z.of_nat (size (cache (run cap ops))) + 1 > cap →
       ∃ victim,
         last ((a, p) :: onceList (run cap ops)) = Some victim
         ∧ onceList (Put (run cap ops) a p pg)
           = removelast ((a, p) :: onceList (run cap ops))
         ∧ freqList (Put (run cap ops) a p pg) = freqList (run cap ops)
         ∧ keys (Put (run cap ops) a p pg)
           = ({[(a, p)]} ∪ keys (run cap ops)) ∖ {[victim]})
  ∧ elements (keys (run 2 [OpPut "array-1" 0 page0; OpPut "array-1" 1 page1;
                           OpPut "array-1" 2 page2]))
    = [("array-1", 1); ("array-1", 2)]
  ∧ elements (keys (run 2 [OpPut "array-1" 0 page0; OpPut "array-1" 1 page1;
                           OpGet "array-1" 0; OpPut "array-1" 2 page2]))
    = [("array-1", 0); ("array-1", 2)].
Proof.
  pose proof (wf_run cap ops) as Hwf.
  set (pc := run cap ops) in *.
  pose proof Hwf as (N1 & N2 & H1 & H2).
  split; [| split; [| split; [| split]]].
  - intros victim Hl. rewrite (evict_once pc victim Hl).
    cbn [onceList freqList cache]. repeat split.
    pose proof Hl as [l' Hl']%last_Some. rewrite Hl' in N1 |- *.
    rewrite removelast_last. by apply ListRemove_back.
  - intros Ho victim Hl. rewrite (evict_freq pc victim Ho Hl).
    cbn [onceList freqList cache]. repeat split.
    pose proof Hl as [l' Hl']%last_Some. rewrite Hl' in N2 |- *.
    rewrite removelast_last. by apply ListRemove_back.
  - intros a p pg Hnone Hfull.
    destruct (wf_absent pc _ Hwf Hnone) as [Hn1 _].
    destruct (last ((a, p) :: onceList pc)) as [victim|] eqn:Hl;
      [| by apply last_None in Hl].
    exists victim. split; [done |].
    unfold Put. rewrite Hnone. cbn [capacity cache].
    rewrite map_size_insert_None by done.
    replace (Z.of_nat (S (size (cache pc))) >? capacity pc) with true.
    2:{ symmetry. rewrite Z.gtb_ltb. apply Z.ltb_lt.
        assert (capacity pc = cap) as -> by apply capacity_run. lia. }
    set (pc' := {| capacity := capacity pc;
                   cache := <[(a, p) := {| key := (a, p); page := pg;
                                           fromFreq := false |}]> (cache pc);
                   freqList := freqList pc;
                   onceList := PushFront (a, p) (onceList pc) |}).
    assert (Hl' : last (onceList pc') = Some victim) by done.
    rewrite (evict_once pc' victim Hl').
    cbn [onceList freqList cache pc']. unfold PushFront. repeat split.
    + assert (Hnd : NoDup ((a, p) :: onceList pc)) by by apply NoDup_cons.
      pose proof Hl as [l0 Hl0]%last_Some. rewrite Hl0 in Hnd |- *.
      rewrite removelast_last. by apply ListRemove_back.
    + unfold keys; cbn [cache]. by rewrite dom_delete_L, dom_insert_L.
  - by vm_compute.
  - by vm_compute.
Qed.

Lemma C4_2Q_eviction_order_witness :
  ∃ victim,
    last (("array-1", 2) :: onceList
            (run 2 [OpPut "array-1" 0 page0; OpPut "array-1" 1 page1]))
      = Some victim
    ∧ victim = ("array-1", 0)
    ∧ onceList (Put (run 2 [OpPut "array-1" 0 page0; OpPut "array-1" 1 page1])
                  "array-1" 2 page2)
      = [("array-1", 2); ("array-1", 1)].
Proof.
  destruct (C4_2Q_eviction_order 2
              [OpPut "array-1" 0 page0; OpPut "array-1" 1 page1])
    as (_ & _ & HPut & _).
  destruct (HPut "array-1" 2 page2) as (victim & Hl & Ho & _).
  - reflexivity.
  - vm_compute. reflexivity.
  - exists victim. split; [exact Hl |]. split.
    + vm_compute in Hl. congruence.
    + rewrite Ho. reflexivity.
Defined.
End CacheEviction.

(** ** The array handle *)

Section ApiFacts.
Local Open Scope Z_scope.
Import Api.

(** C6 (code defect). [Sync] returns [nil] and does nothing else: the
    version read through the handle after a Sync that reported no error
    is the version read before it, for every handle. An array made by
    [NewArray] has version 1 before the call and version 1 after it. *)
Theorem C6_sync_does_not_bump_version (sa : sharedArray) (uuid : string) :
  (Sync sa).2 = None
  ∧ version_of (Sync sa).1 = version_of sa
  ∧ version_of (Sync {| array := Some (Dsm.NewArray uuid 100) |}).1 = Some 1.
Proof. repeat split. Qed.
End ApiFacts.

(* ===================================================================== *)
(** * Part III: further properties of the same code                       *)
(* ===================================================================== *)

(** ** Typed accessors inside the page *)

Section AccessorFacts.
Local Open Scope Z_scope.
Import GoInt Storage Dsm.

Lemma MaxInt_val : MaxInt = 9223372036854775807.
Proof. reflexivity. Qed.

Lemma MinInt_val : MinInt = -9223372036854775808.
Proof. reflexivity. Qed.

Lemma PageSize_val : PageSize = 65536.
Proof. reflexivity. Qed.

Lemma store_lookup_outside (b bs : list Z) (lo : Z) (i : nat) :
  0 <= lo -> lo + len bs <= len b ->
  (Z.of_nat i < lo \/ lo + len bs <= Z.of_nat i) ->
  store b lo bs !! i = b !! i.
Proof.
  unfold store, len. intros H0 H1 [Hlt | Hge].
  - rewrite lookup_app_l by (rewrite length_take; lia).
    apply lookup_take_lt. lia.
  - rewrite lookup_app_r by (rewrite length_take; lia).
    rewrite lookup_app_r by (rewrite length_take; lia).
    rewrite lookup_drop. f_equal. rewrite length_take. lia.
Qed.

Lemma store_window_outside (b bs : list Z) (lo lo' : Z) (n : nat) :
  0 <= lo -> lo + len bs <= len b -> 0 <= lo' ->
  (lo' + Z.of_nat n <= lo \/ lo + len bs <= lo') ->
  take n (drop (Z.to_nat lo') (store b lo bs))
  = take n (drop (Z.to_nat lo') b).
Proof.
  intros H0 H1 H2 Hd. apply list_eq. intros i.
  destruct (decide (i < n)%nat) as [Hi | Hi].
  - rewrite !lookup_take_lt, !lookup_drop by assumption.
    apply store_lookup_outside; lia.
  - rewrite !lookup_take_ge by lia. reflexivity.
Qed.

(** What [getInt64] computes once its bounds test has passed. *)
Lemma getInt64_in_bounds (ps : pageStorage) (offset : Z) :
  0 <= offset -> offset + 8 <= len (data ps) -> len (data ps) <= MaxInt ->
  getInt64 ps offset
  = match LittleEndian.Uint64 (take 8 (drop (Z.to_nat offset) (data ps))) with
    | Ok u => Ok (int64_of_uint64 u)
    | Err e => Err e
    | Panicked p => Panicked p
    end.
Proof.
  intros H0 H1 Hmax. rewrite MaxInt_val in Hmax.
  unfold getInt64.
  rewrite bounds_test by (rewrite ?MinInt_val, ?MaxInt_val; lia).
  unfold add. rewrite wrap_small by (rewrite ?MinInt_val, ?MaxInt_val; lia).
  unfold slice.
  replace ((0 <=? offset) && (offset + 8 <=? len (data ps))) with true
    by (symmetry; apply andb_true_iff; rewrite !Z.leb_le; lia).
  replace ((0 <=? offset) && (offset <=? offset + 8)
           && (offset + 8 <=? len (data ps))) with true
    by (symmetry; rewrite !andb_true_iff, !Z.leb_le; lia).
  cbn [negb]. by replace (Z.to_nat (offset + 8 - offset)) with 8%nat by lia.
Qed.

Lemma setInt64_in_bounds (ps : pageStorage) (offset v : Z) :
  0 <= offset -> offset + 8 <= len (data ps) -> len (data ps) <= MaxInt ->
  setInt64 ps offset v
  = ({| data := store (data ps) offset
                  (LittleEndian.bytes64 (uint64_of_int64 v)) |}, Ok tt).
Proof.
  intros H0 H1 Hmax. rewrite MaxInt_val in Hmax.
  unfold setInt64.
  rewrite bounds_test by (rewrite ?MinInt_val, ?MaxInt_val; lia).
  unfold add. rewrite wrap_small by (rewrite ?MinInt_val, ?MaxInt_val; lia).
  unfold slice.
  replace ((0 <=? offset) && (offset + 8 <=? len (data ps))) with true
    by (symmetry; apply andb_true_iff; rewrite !Z.leb_le; lia).
  replace ((0 <=? offset) && (offset <=? offset + 8)
           && (offset + 8 <=? len (data ps))) with true
    by (symmetry; rewrite !andb_true_iff, !Z.leb_le; lia).
  cbn [negb].
  replace (Z.to_nat (offset + 8 - offset)) with 8%nat by lia.
  assert (Hlen : (8 <= length (drop (Z.to_nat offset) (data ps)))%nat).
  { rewrite length_drop. unfold len in H1. lia. }
  destruct (drop (Z.to_nat offset) (data ps))
    as [|c0 [|c1 [|c2 [|c3 [|c4 [|c5 [|c6 [|c7 tl]]]]]]]];
    cbn [length] in Hlen; try lia.
  reflexivity.
Qed.

Lemma mul8_small (i : Z) : - 2 ^ 60 <= i < 2 ^ 60 -> mul i 8 = i * 8.
Proof.
  intros H. unfold mul. apply wrap_small.
  rewrite MinInt_val, MaxInt_val.
  change (2 ^ 60) with 1152921504606846976 in H. lia.
Qed.

(** X1. Inside the page, an element written is the element read back, the
    other elements read as before, and nothing but the storage of the
    page changes. *)
Theorem Page_int64_roundtrip_and_independence (p : Page) (i j v : Z) :
  len (data (storage p)) = PageSize ->
  0 <= i < 8192 -> 0 <= j < 8192 -> i <> j ->
  - 2 ^ 63 <= v < 2 ^ 63 ->
  (SetInt64 p i v).2 = Ok tt
  /\ GetInt64 (SetInt64 p i v).1 i = Ok v
  /\ GetInt64 (SetInt64 p i v).1 j = GetInt64 p j
  /\ len (data (storage (SetInt64 p i v).1)) = PageSize
  /\ ID (SetInt64 p i v).1 = ID p
  /\ Version (SetInt64 p i v).1 = Version p
  /\ Data (SetInt64 p i v).1 = Data p.
Proof.
  intros Hlen Hi Hj Hij Hv. rewrite PageSize_val in Hlen.
  assert (Hmi : mul i 8 = i * 8)
    by (apply mul8_small; change (2 ^ 60) with 1152921504606846976; lia).
  assert (Hmj : mul j 8 = j * 8)
    by (apply mul8_small; change (2 ^ 60) with 1152921504606846976; lia).
  assert (Hmax : len (data (storage p)) <= MaxInt)
    by (rewrite MaxInt_val; lia).
  destruct (storage_int64_roundtrip (storage p) (i * 8) v) as [Hs Hg];
    try lia.
  unfold SetInt64, GetInt64. rewrite Hmi, Hmj.
  destruct (setInt64 (storage p) (i * 8) v) as [ps' r] eqn:Hset.
  cbn [fst snd with_storage storage ID Version Data] in *.
  pose proof (setInt64_in_bounds (storage p) (i * 8) v) as Hin.
  rewrite Hset in Hin. specialize (Hin ltac:(lia) ltac:(lia) Hmax).
  injection Hin as -> ->.
  assert (Hlen' : len (store (data (storage p)) (i * 8)
                         (LittleEndian.bytes64 (uint64_of_int64 v)))
                  = len (data (storage p))).
  { apply len_store; [lia |]. change (len (LittleEndian.bytes64 _)) with 8.
    lia. }
  repeat split; try done.
  - rewrite !getInt64_in_bounds; cbn [data]; rewrite ?Hlen'; try lia.
    rewrite store_window_outside; [done | lia | | lia |].
    + change (len (LittleEndian.bytes64 _)) with 8. lia.
    + change (len (LittleEndian.bytes64 _)) with 8. lia.
  - cbn [data]. rewrite Hlen'. by rewrite PageSize_val.
Qed.

Lemma Page_int64_roundtrip_and_independence_witness :
  (SetInt64 (NewPage 0 1) 0 42).2 = Ok tt
  /\ GetInt64 (SetInt64 (NewPage 0 1) 0 42).1 0 = Ok 42
  /\ GetInt64 (SetInt64 (NewPage 0 1) 0 42).1 1 = GetInt64 (NewPage 0 1) 1.
Proof.
  destruct (Page_int64_roundtrip_and_independence (NewPage 0 1) 0 1 42)
    as (H1 & H2 & H3 & _).
  - apply NewPage_storage_len.
  - lia.
  - lia.
  - lia.
  - lia.
  - auto.
Defined.

(** X2. An element index outside the page is refused with the out-of-bounds
    error, on reads and on writes, and the page is left as it was; this
    covers every index whose byte offset does not overflow. *)
Theorem Page_int64_outside_rejected (p : Page) (i v : Z) :
  len (data (storage p)) = PageSize ->
  - 2 ^ 60 <= i < 2 ^ 60 - 1 ->
  i < 0 \/ 8192 <= i ->
  GetInt64 p i = Err (ErrOutOfBounds (i * 8))
  /\ SetInt64 p i v = (p, Err (ErrOutOfBounds (i * 8))).
Proof.
  intros Hlen Hi Hout. rewrite PageSize_val in Hlen.
  change (2 ^ 60) with 1152921504606846976 in Hi.
  assert (Hm : mul i 8 = i * 8)
    by (apply mul8_small; change (2 ^ 60) with 1152921504606846976; lia).
  destruct (storage_int64_rejected (storage p) (i * 8) v) as [Hg Hs];
    rewrite ?MinInt_val, ?MaxInt_val; try lia.
  unfold GetInt64, SetInt64. rewrite Hm, Hg, Hs.
  split; [done |]. by destruct p.
Qed.

Lemma Page_int64_outside_rejected_witness :
  GetInt64 (NewPage 0 1) 8192 = Err (ErrOutOfBounds 65536)
  /\ SetInt64 (NewPage 0 1) (-1) 7 = (NewPage 0 1, Err (ErrOutOfBounds (-8))).
Proof.
  split.
  - apply (Page_int64_outside_rejected (NewPage 0 1) 8192 0).
    + apply NewPage_storage_len.
    + change (2 ^ 60) with 1152921504606846976. lia.
    + lia.
  - apply (Page_int64_outside_rejected (NewPage 0 1) (-1) 7).
    + apply NewPage_storage_len.
    + change (2 ^ 60) with 1152921504606846976. lia.
    + lia.
Defined.
End AccessorFacts.

Section AccessorLayout.
Local Open Scope Z_scope.
Import GoInt Storage Dsm.

Lemma repeat_replicate (x : Z) (n : nat) : repeat x n = replicate n x.
Proof. induction n as [|n IH]; [done |]. cbn. by rewrite IH. Qed.

Lemma window_of_zeros (n k : nat) (lo : nat) :
  (lo + k <= n)%nat -> take k (drop lo (repeat 0 n)) = replicate k 0.
Proof.
  intros H. rewrite repeat_replicate, drop_replicate, take_replicate.
  f_equal. lia.
Qed.

(** X3. A page made by [NewPage] reads zero at every element. *)
Theorem NewPage_reads_zero (id version i : Z) :
  0 <= i < 8192 -> GetInt64 (NewPage id version) i = Ok 0.
Proof.
  intros Hi. unfold GetInt64.
  rewrite mul8_small by (change (2 ^ 60) with 1152921504606846976; lia).
  pose proof (NewPage_storage_len id version) as Hlen.
  rewrite PageSize_val in Hlen.
  rewrite getInt64_in_bounds by (rewrite ?MaxInt_val; lia).
  cbn [NewPage storage newPageStorage data].
  rewrite window_of_zeros; [reflexivity |].
  rewrite PageSize_val. lia.
Qed.

Lemma NewPage_reads_zero_witness : GetInt64 (NewPage 3 1) 8191 = Ok 0.
Proof. apply NewPage_reads_zero. lia. Defined.

Lemma store_lookup_inside (b bs : list Z) (lo : Z) (k : nat) :
  0 <= lo -> lo + len bs <= len b -> (k < length bs)%nat ->
  store b lo bs !! (Z.to_nat lo + k)%nat = bs !! k.
Proof.
  unfold store, len. intros H0 H1 Hk.
  rewrite lookup_app_r by (rewrite length_take; lia).
  rewrite length_take.
  replace (Z.to_nat lo + k - Z.to_nat lo `min` length b)%nat with k by lia.
  by apply lookup_app_l.
Qed.

(** X4. The eight bytes [setInt64] writes are the two's complement of the
    value, least significant byte first; the buffer keeps its length
    and every byte outside the eight keeps its value. *)
Theorem setInt64_little_endian_layout (ps : pageStorage) (offset v : Z) :
  0 <= offset -> offset + 8 <= len (data ps) -> len (data ps) <= MaxInt ->
  let ps' := (setInt64 ps offset v).1 in
  len (data ps') = len (data ps)
  /\ (forall k : nat, (k < 8)%nat ->
        data ps' !! (Z.to_nat offset + k)%nat
        = Some ((v mod 2 ^ 64) / 2 ^ (8 * Z.of_nat k) mod 256))
  /\ (forall i : nat, Z.of_nat i < offset \/ offset + 8 <= Z.of_nat i ->
        data ps' !! i = data ps !! i).
Proof.
  intros H0 H1 Hmax. cbv zeta.
  rewrite setInt64_in_bounds by assumption. cbn [fst data].
  set (bs := LittleEndian.bytes64 (uint64_of_int64 v)).
  assert (Hbs : len bs = 8) by reflexivity.
  split; [| split].
  - apply len_store; lia.
  - intros k Hk.
    rewrite store_lookup_inside by (unfold len in *; cbn [length bs]; lia).
    subst bs. unfold LittleEndian.bytes64, byte_of, uint64_of_int64.
    destruct k as [|[|[|[|[|[|[|[|k]]]]]]]]; try lia; cbn [lookup list_lookup];
      f_equal; rewrite ?Z.shiftr_div_pow2 by lia; try reflexivity.
    cbn [Z.of_nat Z.mul]. by rewrite Z.div_1_r.
  - intros i Hi. apply store_lookup_outside; lia.
Qed.

Lemma setInt64_little_endian_layout_witness :
  data (setInt64 (newPageStorage 16) 4 258).1 !! 4%nat = Some 2
  /\ data (setInt64 (newPageStorage 16) 4 258).1 !! 5%nat = Some 1
  /\ data (setInt64 (newPageStorage 16) 4 (-1)).1 !! 11%nat = Some 255.
Proof.
  assert (Hlen : len (data (newPageStorage 16)) = 16) by reflexivity.
  destruct (setInt64_little_endian_layout (newPageStorage 16) 4 258)
    as (_ & Hb & _); [lia | lia | rewrite Hlen, MaxInt_val; lia |].
  destruct (setInt64_little_endian_layout (newPageStorage 16) 4 (-1))
    as (_ & Hb' & _); [lia | lia | rewrite Hlen, MaxInt_val; lia |].
  split; [| split].
  - apply (Hb 0%nat). lia.
  - apply (Hb 1%nat). lia.
  - apply (Hb' 7%nat). lia.
Defined.
End AccessorLayout.

(** ** Floats, raw bytes and the page count *)

Section StorageMore.
Local Open Scope Z_scope.
Import GoInt Storage StorageBytes Dsm.

Lemma Uint32_bytes32 (u : Z) (rest : list Z) :
  0 <= u < 2 ^ 32 ->
  LittleEndian.Uint32 (LittleEndian.bytes32 u ++ rest) = Ok u.
Proof.
  intros Hu. unfold LittleEndian.bytes32, LittleEndian.Uint32.
  cbn [app]. f_equal.
  change (byte_of u) with (u mod 2 ^ 8).
  rewrite (lor_next_byte u 8 16) by lia.
  rewrite (lor_next_byte u 16 24) by lia.
  rewrite (lor_next_byte u 24 32) by lia.
  apply Z.mod_small. exact Hu.
Qed.

Lemma slice_in_bounds (b : list Z) (lo size : Z) :
  0 <= lo -> 0 <= size -> lo + size <= len b ->
  slice b lo (lo + size)
  = Ok (take (Z.to_nat size) (drop (Z.to_nat lo) b)).
Proof.
  intros H0 Hs H1. unfold slice.
  replace ((0 <=? lo) && (lo <=? lo + size) && (lo + size <=? len b))
    with true by (symmetry; rewrite !andb_true_iff, !Z.leb_le; lia).
  do 2 f_equal. lia.
Qed.

Lemma bounds_pass (b : list Z) (offset size : Z) :
  0 <= offset -> 0 <= size -> offset + size <= len b -> len b <= MaxInt ->
  (offset <? 0) || (add offset size >? len b) = false
  /\ add offset size = offset + size.
Proof.
  intros H0 Hs H1 Hmax. rewrite MaxInt_val in Hmax. split.
  - rewrite bounds_test by (rewrite ?MinInt_val, ?MaxInt_val; lia).
    apply negb_false_iff, andb_true_iff. rewrite !Z.leb_le. lia.
  - unfold add. apply wrap_small. rewrite MinInt_val, MaxInt_val. lia.
Qed.

(** X5. The float accessors keep the integer part only: a finite value
    whose truncation fits [uint32] is stored as that integer, and the
    read returns the integer converted to [float32]. *)
Theorem float32_accessors_keep_integer_part
    (unrep : Float32.float32 -> Z) (ps : pageStorage) (offset : Z)
    (v : Float32.float32) (z : Z) :
  0 <= offset -> offset + 4 <= len (data ps) -> len (data ps) <= MaxInt ->
  Float32.trunc v = Some z -> 0 <= z < 2 ^ 32 ->
  (setFloat32 unrep ps offset v).2 = Ok tt
  /\ getFloat32 (setFloat32 unrep ps offset v).1 offset
     = Ok (Float32.of_uint32 z)
  /\ len (data (setFloat32 unrep ps offset v).1) = len (data ps).
Proof.
  intros H0 H1 Hmax Htr Hz.
  destruct (bounds_pass (data ps) offset 4) as [Htest Hadd]; try lia.
  assert (Hconv : Float32.to_uint32 unrep v = z).
  { unfold Float32.to_uint32. rewrite Htr.
    replace ((0 <=? z) && (z <? 2 ^ 32)) with true; [done |].
    symmetry. apply andb_true_iff. rewrite Z.leb_le, Z.ltb_lt. lia. }
  unfold setFloat32. rewrite Htest, Hadd, slice_in_bounds by lia.
  assert (Hl : (4 <= length (drop (Z.to_nat offset) (data ps)))%nat).
  { rewrite length_drop. unfold len in H1. lia. }
  change (Z.to_nat 4) with 4%nat.
  destruct (drop (Z.to_nat offset) (data ps)) as [|c0 [|c1 [|c2 [|c3 tl]]]];
    cbn [length] in Hl; try lia.
  cbn [take fst snd data]. rewrite Hconv.
  set (bs := LittleEndian.bytes32 z).
  assert (Hbs : len bs = 4) by reflexivity.
  assert (Hlen' : len (store (data ps) offset bs) = len (data ps))
    by (apply len_store; lia).
  split; [done |]. split; [| done].
  unfold getFloat32. cbn [data]. rewrite Hlen', Htest, Hadd.
  rewrite <- Hbs at 1. rewrite slice_store by lia.
  subst bs. rewrite <- (app_nil_r (LittleEndian.bytes32 z)).
  by rewrite Uint32_bytes32.
Qed.

Lemma float32_accessors_keep_integer_part_witness :
  getFloat32
    (setFloat32 (λ _, 0) (newPageStorage 8) 4
       (S754_finite false 11534336 (-22))).1 4
  = Ok (S754_finite false 8388608 (-22)).
Proof.
  destruct (float32_accessors_keep_integer_part (λ _, 0) (newPageStorage 8) 4
              (S754_finite false 11534336 (-22)) 2) as (_ & Hg & _).
  - lia.
  - change (len (data (newPageStorage 8))) with 8. lia.
  - change (len (data (newPageStorage 8))) with 8. rewrite MaxInt_val. lia.
  - reflexivity.
  - change (2 ^ 32) with 4294967296. lia.
  - exact Hg.
Defined.

Lemma copy_same_length (dst src : list Z) :
  length dst = length src -> copy dst src = src.
Proof.
  intros H. unfold copy. rewrite H, take_ge, drop_ge by lia.
  apply app_nil_r.
Qed.

(** X6. [writeElement] followed by [readElement] at the same place returns
    the bytes written, and the buffer keeps its length. *)
Theorem writeElement_readElement_roundtrip
    (ps : pageStorage) (offset size : Z) (bytes : list Z) :
  0 <= offset -> offset + size <= len (data ps) -> len (data ps) <= MaxInt ->
  len bytes = size ->
  (writeElement ps offset size bytes).2 = Done tt
  /\ readElement (writeElement ps offset size bytes).1 offset size
     = Done bytes
  /\ len (data (writeElement ps offset size bytes).1) = len (data ps).
Proof.
  intros H0 H1 Hmax Hb.
  assert (Hs : 0 <= size) by (unfold len in Hb; lia).
  destruct (bounds_pass (data ps) offset size) as [Htest Hadd]; try lia.
  unfold writeElement. rewrite Htest, Hadd.
  replace (len bytes =? size) with true by (symmetry; by apply Z.eqb_eq).
  cbn [negb]. rewrite slice_in_bounds by lia. cbn [fst snd data].
  rewrite copy_same_length.
  2:{ rewrite length_take, length_drop. unfold len in *. lia. }
  assert (Hlen' : len (store (data ps) offset bytes) = len (data ps))
    by (apply len_store; lia).
  split; [done |]. split; [| done].
  unfold readElement. cbn [data]. rewrite Hlen', Htest, Hadd.
  unfold make. replace (size <? 0) with false
    by (symmetry; apply Z.ltb_ge; lia).
  assert (Hsl : slice (store (data ps) offset bytes) offset (offset + size)
                = Ok bytes).
  { rewrite <- Hb. apply slice_store; lia. }
  rewrite Hsl.
  f_equal. apply copy_same_length. rewrite repeat_length.
  unfold len in Hb. lia.
Qed.

Lemma writeElement_readElement_roundtrip_witness :
  readElement (writeElement (newPageStorage 8) 2 3 [7; 8; 9]).1 2 3
  = Done [7; 8; 9].
Proof.
  destruct (writeElement_readElement_roundtrip (newPageStorage 8) 2 3
              [7; 8; 9]) as (_ & Hr & _).
  - lia.
  - change (len (data (newPageStorage 8))) with 8. lia.
  - change (len (data (newPageStorage 8))) with 8. rewrite MaxInt_val. lia.
  - reflexivity.
  - exact Hr.
Defined.

(** X7. [writeElement] refuses, in this order, a range outside the buffer
    and a byte string whose length is not the element size; in both
    cases the buffer is left as it was. *)
Theorem writeElement_refusals
    (ps : pageStorage) (offset size : Z) (bytes : list Z) :
  MinInt <= offset -> 0 <= size -> offset + size <= MaxInt ->
  (offset < 0 \/ offset + size > len (data ps) ->
     writeElement ps offset size bytes
     = (ps, Failed (Plain (ErrOutOfBounds offset))))
  /\ (0 <= offset -> offset + size <= len (data ps) -> len bytes <> size ->
     writeElement ps offset size bytes
     = (ps, Failed (ErrDataSizeMismatch size (len bytes)))).
Proof.
  intros Hlo Hs Hhi. unfold writeElement.
  rewrite bounds_test by lia. split.
  - intros Hout.
    replace ((0 <=? offset) && (offset + size <=? len (data ps))) with false;
      [done |].
    symmetry. apply andb_false_iff. rewrite !Z.leb_gt. lia.
  - intros H0 H1 Hne.
    replace ((0 <=? offset) && (offset + size <=? len (data ps))) with true
      by (symmetry; apply andb_true_iff; rewrite !Z.leb_le; lia).
    cbn [negb].
    by replace (len bytes =? size) with false
      by (symmetry; by apply Z.eqb_neq).
Qed.

Lemma writeElement_refusals_witness :
  writeElement (newPageStorage 8) 6 3 [7; 8; 9]
  = (newPageStorage 8, Failed (Plain (ErrOutOfBounds 6)))
  /\ writeElement (newPageStorage 8) 2 3 [7; 8]
  = (newPageStorage 8, Failed (ErrDataSizeMismatch 3 2)).
Proof.
  destruct (writeElement_refusals (newPageStorage 8) 6 3 [7; 8; 9])
    as [Hout _]; rewrite ?MinInt_val, ?MaxInt_val; try lia.
  destruct (writeElement_refusals (newPageStorage 8) 2 3 [7; 8])
    as [_ Hmis]; rewrite ?MinInt_val, ?MaxInt_val; try lia.
  split.
  - apply Hout. change (len (data (newPageStorage 8))) with 8. lia.
  - apply Hmis.
    + lia.
    + change (len (data (newPageStorage 8))) with 8. lia.
    + change (len [7; 8]) with 2. lia.
Defined.

(** [setData] replaces the whole buffer when the lengths agree, so that
    [getData] returns the bytes given, and refuses any other length
    without touching the buffer. *)
Theorem setData_getData (ps : pageStorage) (bytes : list Z) :
  (len bytes = len (data ps) ->
     (setData ps bytes).2 = Done tt
     /\ getData (setData ps bytes).1 = bytes)
  /\ (len bytes <> len (data ps) ->
     setData ps bytes
     = (ps, Failed (ErrDataSizeMismatch (len (data ps)) (len bytes)))).
Proof.
  unfold setData, getData. split.
  - intros Heq.
    replace (len bytes =? len (data ps)) with true
      by (symmetry; by apply Z.eqb_eq).
    cbn [negb fst snd data]. split; [done |].
    apply copy_same_length. unfold len in Heq. lia.
  - intros Hne.
    by replace (len bytes =? len (data ps)) with false
      by (symmetry; by apply Z.eqb_neq).
Qed.

Lemma setData_getData_witness :
  getData (setData (newPageStorage 3) [1; 2; 3]).1 = [1; 2; 3]
  /\ setData (newPageStorage 3) [1; 2]
     = (newPageStorage 3, Failed (ErrDataSizeMismatch 3 2)).
Proof.
  destruct (setData_getData (newPageStorage 3) [1; 2; 3]) as [Hok _].
  destruct (setData_getData (newPageStorage 3) [1; 2]) as [_ Hbad].
  split.
  - apply Hok. reflexivity.
  - apply Hbad. discriminate.
Defined.

(** X8. For every length whose byte size plus one page fits the machine
    integer, [NewArray] gives the least number of 64 KiB pages that hold
    [length] eight-byte elements; the array starts at version 1 with no
    page owner. *)
Theorem NewArray_page_count_in_range (uuid : string) (length : Z) :
  0 <= length -> length * 8 + PageSize <= MaxInt ->
  let a := NewArray uuid length in
  (NumPages a - 1) * PageSize < length * 8 <= NumPages a * PageSize
  /\ PageCount a = (length * 8 + (PageSize - 1)) / PageSize
  /\ Length a = length /\ AVersion a = 1 /\ PageMapping a = ∅
  /\ AID a = uuid.
Proof.
  intros H0 Hmax. cbv zeta. rewrite PageSize_val, MaxInt_val in *.
  unfold PageCount, NewArray. cbn [NumPages Length AVersion PageMapping AID].
  unfold quo, sub, add, mul. rewrite PageSize_val.
  rewrite (wrap_small (length * 8)) by (rewrite MinInt_val, MaxInt_val; lia).
  rewrite (wrap_small (length * 8 + 65536))
    by (rewrite MinInt_val, MaxInt_val; lia).
  rewrite (wrap_small (length * 8 + 65536 - 1))
    by (rewrite MinInt_val, MaxInt_val; lia).
  rewrite Z.quot_div_nonneg by lia.
  replace (length * 8 + 65536 - 1) with (length * 8 + (65536 - 1)) by lia.
  change (65536 - 1) with 65535.
  rewrite wrap_small.
  2:{ rewrite MinInt_val, MaxInt_val.
      pose proof (Z.div_pos (length * 8 + 65535) 65536).
      assert ((length * 8 + 65535) / 65536 <= length * 8 + 65535)
        by (apply Z.div_le_upper_bound; lia).
      lia. }
  repeat split; try done; Z.div_mod_to_equations; lia.
Qed.

Lemma NewArray_page_count_in_range_witness :
  PageCount (NewArray "array-1" 100) = 1
  /\ PageCount (NewArray "array-2" 10000000) = 1221
  /\ PageCount (NewArray "array-3" 0) = 0.
Proof.
  destruct (NewArray_page_count_in_range "array-1" 100)
    as (_ & H1 & _); [lia | rewrite PageSize_val, MaxInt_val; lia |].
  destruct (NewArray_page_count_in_range "array-2" 10000000)
    as (_ & H2 & _); [lia | rewrite PageSize_val, MaxInt_val; lia |].
  destruct (NewArray_page_count_in_range "array-3" 0)
    as (_ & H3 & _); [lia | rewrite PageSize_val, MaxInt_val; lia |].
  rewrite H1, H2, H3. repeat split; reflexivity.
Defined.
End StorageMore.

(** ** More on the lease manager *)

Section LeaseMore.
Local Open Scope Z_scope.
Import Lease LeaseRuns.

Implicit Types (lm : LeaseManager) (m : gmap leaseKey Lease).
Implicit Types (l : Lease) (k : leaseKey).

(** *** Lease IDs stay unique *)

Lemma unique_IDs_empty : unique_IDs ∅.
Proof. intros k1 k2 l1 l2 H. by rewrite lookup_empty in H. Qed.

Lemma unique_IDs_delete m k : unique_IDs m → unique_IDs (delete k m).
Proof.
  intros Hu k1 k2 l1 l2 [_ H1]%lookup_delete_Some [_ H2]%lookup_delete_Some.
  by apply Hu.
Qed.

Lemma unique_IDs_foldl_delete (ks : list leaseKey) m :
  unique_IDs m → unique_IDs (foldl (λ m k, delete k m) m ks).
Proof.
  revert m. induction ks as [|k ks IH]; intros m Hu; [done |].
  cbn [foldl]. by apply IH, unique_IDs_delete.
Qed.

Lemma unique_IDs_insert_fresh m k l :
  unique_IDs m → fresh_ID m (ID l) → unique_IDs (<[k := l]> m).
Proof.
  intros Hu Hf k1 k2 l1 l2.
  rewrite !lookup_insert_Some.
  intros [[<- <-] | [Hn1 H1]] [[<- <-] | [Hn2 H2]] Hid; try done.
  - by destruct (Hf _ _ H2).
  - by destruct (Hf _ _ H1).
  - by eapply Hu.
Qed.

Lemma unique_IDs_insert_same_ID m k l l' :
  unique_IDs m → m !! k = Some l → ID l' = ID l →
  unique_IDs (<[k := l']> m).
Proof.
  intros Hu Hk Hid k1 k2 l1 l2.
  rewrite !lookup_insert_Some.
  intros [[<- <-] | [Hn1 H1]] [[<- <-] | [Hn2 H2]] Hid'; try done.
  - symmetry. eapply Hu; [exact H2 | exact Hk | congruence].
  - eapply Hu; [exact H1 | exact Hk | congruence].
  - by eapply Hu.
Qed.

Lemma run_op_unique_IDs lm o :
  unique_IDs (leases lm) → fresh_op lm o → unique_IDs (leases (run_op lm o)).
Proof.
  intros Hu Hf. destruct o as [now uuid a p ty owner v | lid | a p | now];
    cbn [run_op fresh_op] in *.
  - unfold AcquireLease.
    pose proof (unique_IDs_insert_fresh (leases lm) (a, p)
      {| ID := uuid; ArrayID := a; PageID := p; Type_ := ty; Owner := owner;
         ExpiresAt := now + ttl lm; Version := v |} Hu Hf) as Hnew.
    destruct (leases lm !! (a, p)) as [ex|] eqn:Hex; [| exact Hnew].
    repeat case_match; try done.
    cbn [fst with_leases leases].
    by eapply unique_IDs_insert_same_ID.
  - unfold ReleaseLease.
    destruct (find_by_ID (leases lm) lid) as [[k l]|]; [| done].
    by apply unique_IDs_delete.
  - unfold RevokeLease.
    destruct (leases lm !! (a, p)); [| done]. by apply unique_IDs_delete.
  - by apply unique_IDs_foldl_delete.
Qed.

(** X9. When every generated lease ID is new at the time it is generated,
    no two leases of the table ever share an ID. *)
Theorem fresh_run_unique_IDs (ttl : Z) (ops : list op) :
  fresh_run (NewLeaseManager ttl) ops → unique_IDs (leases (run ttl ops)).
Proof.
  unfold run.
  assert (Hu0 : unique_IDs (leases (NewLeaseManager ttl)))
    by apply unique_IDs_empty.
  revert Hu0. generalize (NewLeaseManager ttl).
  induction ops as [|o ops IH]; intros lm Hu Hf; [done |].
  cbn [foldl]. destruct Hf as [Hfo Hf].
  apply IH; [| done]. by apply run_op_unique_IDs.
Qed.

Lemma fresh_run_unique_IDs_witness :
  unique_IDs
    (leases (run 10 [OpAcquire 0 "lease-1" "array-1" 0 WriteLease
                       "client-1" 1;
                     OpAcquire 1 "lease-2" "array-1" 1 ReadLease
                       "client-2" 1;
                     OpRevoke "array-1" 0])).
Proof.
  apply fresh_run_unique_IDs. cbn [fresh_run fresh_op].
  split; [| split; [| done]].
  - intros k l H. cbn [NewLeaseManager leases] in H.
    by rewrite lookup_empty in H.
  - intros k l H. change (leases _) with (leases held_write) in H.
    rewrite held_write_leases in H.
    apply lookup_singleton_Some in H as [_ <-]. discriminate.
Defined.

(** *** One entry per page *)

(** X10. In every reachable state the table holds at most one lease per
    page, of whatever type and whether expired or not, and each lease is
    filed under the page it names. *)
Theorem one_lease_per_page (ttl : Z) (ops : list op) (a : string) (p : Z) :
  (length (List.filter (covers a p) (table (run ttl ops))) ≤ 1)%nat
  ∧ ∀ k l, leases (run ttl ops) !! k = Some l → k = (ArrayID l, PageID l).
Proof.
  pose proof (run_keyed ttl ops) as Hk. split; [| exact Hk].
  unfold table.
  pose proof (filter_covering_short (map_to_list (leases (run ttl ops))) a p
    (λ _, true) (NoDup_fst_map_to_list _)) as H.
  erewrite List.filter_ext; [apply H |].
  - intros k l Hin. apply Hk. by apply elem_of_map_to_list.
  - intros l. cbn beta. by rewrite andb_true_r.
Qed.

(** *** Granting *)

(** X11. On a page with no recorded lease, a request of either type is
    granted: the lease returned carries the generated ID and the
    arguments of the call, expires at [now + ttl], and is the entry of
    the page afterwards; the other entries are as before. *)
Theorem AcquireLease_free_page lm now uuid a p ty owner v :
  leases lm !! (a, p) = None →
  let r := AcquireLease lm now uuid a p ty owner v in
  let lease := {| ID := uuid; ArrayID := a; PageID := p; Type_ := ty;
                  Owner := owner; ExpiresAt := now + ttl lm;
                  Version := v |} in
  r.2 = Ok lease
  ∧ leases r.1 !! (a, p) = Some lease
  ∧ (∀ k, k ≠ (a, p) → leases r.1 !! k = leases lm !! k)
  ∧ size (leases r.1) = S (size (leases lm))
  ∧ ttl r.1 = ttl lm.
Proof.
  intros Hnone. cbv zeta. unfold AcquireLease. rewrite Hnone.
  cbn [fst snd with_leases leases ttl]. repeat split.
  - apply lookup_insert_eq.
  - intros k Hk. by apply lookup_insert_ne.
  - by apply map_size_insert_None.
Qed.

Lemma AcquireLease_free_page_witness :
  (AcquireLease held_write 3 "lease-2" "array-1" 1 ReadLease "client-2" 1).2
  = Ok {| ID := "lease-2"; ArrayID := "array-1"; PageID := 1;
          Type_ := ReadLease; Owner := "client-2"; ExpiresAt := 13;
          Version := 1 |}.
Proof.
  destruct (AcquireLease_free_page held_write 3 "lease-2" "array-1" 1
              ReadLease "client-2" 1) as (H & _); [reflexivity |].
  exact H.
Defined.

(** X12. The conflict matrix: a request is refused exactly when a lease is
    recorded for the page and either that lease is a Write lease, or it
    is a Read lease and the request is for a Write lease; the owner, the
    version and the clock play no part. A lease type is an integer: when
    a lease is recorded and neither refusal nor the Read-on-Read
    extension applies (the recorded type or the requested type is none
    of the two constants), the request is granted with a new lease that
    replaces the recorded one. *)
Theorem AcquireLease_refused_iff lm now uuid a p ty owner v :
  ((∃ e, (AcquireLease lm now uuid a p ty owner v).2 = Err e)
   ↔ ∃ existing, leases lm !! (a, p) = Some existing
                 ∧ (Type_ existing = WriteLease
                    ∨ (Type_ existing = ReadLease ∧ ty = WriteLease)))
  ∧ (∀ existing, leases lm !! (a, p) = Some existing →
       Type_ existing ≠ WriteLease →
       ¬ (Type_ existing = ReadLease ∧ (ty = WriteLease ∨ ty = ReadLease)) →
       AcquireLease lm now uuid a p ty owner v
       = (with_leases lm
            (<[(a, p) := {| ID := uuid; ArrayID := a; PageID := p;
                            Type_ := ty; Owner := owner;
                            ExpiresAt := now + ttl lm; Version := v |}]>
               (leases lm)),
          Ok {| ID := uuid; ArrayID := a; PageID := p; Type_ := ty;
                Owner := owner; ExpiresAt := now + ttl lm;
                Version := v |})).
Proof.
  unfold AcquireLease. split.
  - destruct (leases lm !! (a, p)) as [ex|] eqn:Hex.
    + destruct (decide (Type_ ex = WriteLease)) as [Hw | Hw].
      { rewrite bool_decide_eq_true_2 by done. split; [| eauto].
        intros _. exists ex. auto. }
      rewrite (bool_decide_eq_false_2 _ Hw).
      destruct (decide (Type_ ex = ReadLease)) as [Hr | Hr].
      * rewrite !(bool_decide_eq_true_2 _ Hr). cbn [andb].
        destruct (decide (ty = WriteLease)) as [Htw | Htw].
        { rewrite bool_decide_eq_true_2 by done. split; [| eauto].
          intros _. exists ex. auto. }
        rewrite (bool_decide_eq_false_2 _ Htw).
        split.
        -- intros [e He]. exfalso. by case_match.
        -- intros (ex' & [= <-] & [Hc | [_ Hc]]); done.
      * rewrite !(bool_decide_eq_false_2 _ Hr). cbn [andb]. split.
        -- intros [e [=]].
        -- intros (ex' & [= <-] & [Hc | [Hc _]]); done.
    + split; [intros [e [=]] | intros (ex' & [=] & _)].
  - intros ex -> Hw Hn.
    rewrite (bool_decide_eq_false_2 _ Hw).
    destruct (decide (Type_ ex = ReadLease)) as [Hr | Hr].
    + rewrite !(bool_decide_eq_true_2 _ Hr). cbn [andb].
      rewrite !bool_decide_eq_false_2; [done | |]; intros ->; apply Hn; auto.
    + by rewrite !(bool_decide_eq_false_2 _ Hr).
Qed.

(** X13. A lease just granted on a free page, under a new ID, validates
    until its expiry instant and is reported expired after it. *)
Theorem acquire_then_validate lm now now' uuid a p ty owner v :
  unique_IDs (leases lm) → fresh_ID (leases lm) uuid →
  leases lm !! (a, p) = None →
  let r := AcquireLease lm now uuid a p ty owner v in
  ValidateLease r.1 now' uuid
  = if now + ttl lm <? now' then Err (ErrLeaseExpired uuid) else r.2.
Proof.
  intros Hu Hf Hnone. cbv zeta.
  pose proof (run_op_unique_IDs lm (OpAcquire now uuid a p ty owner v) Hu Hf)
    as Hu'. cbn [run_op] in Hu'.
  set (lease := {| ID := uuid; ArrayID := a; PageID := p; Type_ := ty;
                   Owner := owner; ExpiresAt := now + ttl lm;
                   Version := v |}).
  assert (Hres : (AcquireLease lm now uuid a p ty owner v).2 = Ok lease
                 ∧ leases (AcquireLease lm now uuid a p ty owner v).1
                   !! (a, p) = Some lease).
  { unfold AcquireLease. rewrite Hnone. cbn [fst snd with_leases leases].
    split; [done | apply lookup_insert_eq]. }
  destruct Hres as [Hres Hl].
  unfold ValidateLease.
  rewrite (find_by_ID_unique _ uuid (a, p) _ Hu' Hl eq_refl).
  cbn [ExpiresAt lease]. unfold After. by rewrite Hres.
Qed.

Lemma acquire_then_validate_witness :
  ValidateLease
    (AcquireLease (NewLeaseManager 10) 0 "lease-1" "array-1" 0 ReadLease
       "client-1" 1).1 30 "lease-1"
  = Err (ErrLeaseExpired "lease-1").
Proof.
  rewrite (acquire_then_validate (NewLeaseManager 10) 0 30 "lease-1"
             "array-1" 0 ReadLease "client-1" 1).
  - reflexivity.
  - apply unique_IDs_empty.
  - intros k l H. cbn [NewLeaseManager leases] in H.
    by rewrite lookup_empty in H.
  - reflexivity.
Defined.
End LeaseMore.

Section LeaseRemoval.
Local Open Scope Z_scope.
Import Lease LeaseRuns.

Implicit Types (lm : LeaseManager) (m : gmap leaseKey Lease).
Implicit Types (l : Lease) (k : leaseKey).

(** X14. With IDs unique in the table, releasing the ID of a recorded lease
    removes that entry and no other, after which the ID no longer
    validates. *)
Theorem ReleaseLease_removes_the_lease lm now k l :
  unique_IDs (leases lm) → leases lm !! k = Some l →
  let r := ReleaseLease lm (ID l) in
  r.2 = Ok tt
  ∧ leases r.1 = delete k (leases lm)
  ∧ ttl r.1 = ttl lm
  ∧ ValidateLease r.1 now (ID l) = Err (ErrLeaseNotFound (ID l)).
Proof.
  intros Hu Hk. cbv zeta. unfold ReleaseLease.
  rewrite (find_by_ID_unique _ _ k l Hu Hk eq_refl).
  cbn [fst snd with_leases leases ttl]. repeat split.
  unfold ValidateLease. cbn [leases].
  rewrite (proj2 (find_by_ID_None _ _)); [done |].
  intros k' l' Hk' Hid. cbn [with_leases leases] in Hk'.
  apply lookup_delete_Some in Hk' as [Hne Hk'].
  apply Hne. symmetry. by eapply Hu.
Qed.

Lemma ReleaseLease_removes_the_lease_witness :
  leases (ReleaseLease held_read "lease-1").1 = delete ("array-1", 0) (leases held_read)
  ∧ ValidateLease (ReleaseLease held_read "lease-1").1 5 "lease-1"
    = Err (ErrLeaseNotFound "lease-1").
Proof.
  assert (Hu : unique_IDs (leases held_read)).
  { rewrite held_read_leases. apply unique_IDs_singleton. }
  destruct (ReleaseLease_removes_the_lease held_read 5 ("array-1", 0)
              {| ID := "lease-1"; ArrayID := "array-1"; PageID := 0;
                 Type_ := ReadLease; Owner := "client-1"; ExpiresAt := 10;
                 Version := 1 |} Hu eq_refl) as (_ & Hd & _ & Hv).
  split; [exact Hd | exact Hv].
Defined.

(** Releasing an ID that no recorded lease carries fails with
    not-found and leaves the manager as it was. *)
Theorem ReleaseLease_unknown_ID lm leaseID :
  fresh_ID (leases lm) leaseID →
  ReleaseLease lm leaseID = (lm, Err (ErrLeaseNotFound leaseID)).
Proof.
  intros Hf. unfold ReleaseLease.
  by apply find_by_ID_None in Hf as ->.
Qed.

Lemma ReleaseLease_unknown_ID_witness :
  ReleaseLease held_read "lease-9"
  = (held_read, Err (ErrLeaseNotFound "lease-9")).
Proof.
  apply ReleaseLease_unknown_ID. rewrite held_read_leases.
  intros k l [_ <-]%lookup_singleton_Some. discriminate.
Defined.

(** X15. [RevokeLease] never fails; it clears the entry of the page and
    nothing else, doing it twice is doing it once, and afterwards a
    request of either type on the page is granted to the requester. *)
Theorem RevokeLease_clears_the_page lm now uuid a p ty owner v :
  let lm' := (RevokeLease lm a p).1 in
  (RevokeLease lm a p).2 = Ok tt
  ∧ leases lm' = delete (a, p) (leases lm)
  ∧ ttl lm' = ttl lm
  ∧ RevokeLease lm' a p = (lm', Ok tt)
  ∧ HasWriteLease lm' now a p = false
  ∧ (AcquireLease lm' now uuid a p ty owner v).2
    = Ok {| ID := uuid; ArrayID := a; PageID := p; Type_ := ty;
            Owner := owner; ExpiresAt := now + ttl lm; Version := v |}.
Proof.
  cbv zeta.
  assert (Hd : leases (RevokeLease lm a p).1 = delete (a, p) (leases lm)).
  { unfold RevokeLease.
    destruct (leases lm !! (a, p)) eqn:Hk; cbn [fst with_leases leases];
      [done |]. symmetry. by apply delete_id. }
  assert (Ht : ttl (RevokeLease lm a p).1 = ttl lm).
  { unfold RevokeLease. by destruct (leases lm !! (a, p)). }
  assert (Hn : leases (RevokeLease lm a p).1 !! (a, p) = None)
    by (rewrite Hd; apply lookup_delete_eq).
  repeat split; try done.
  - unfold RevokeLease. by destruct (leases lm !! (a, p)).
  - unfold RevokeLease at 1 3. by rewrite Hn.
  - unfold HasWriteLease. by rewrite Hn.
  - unfold AcquireLease. by rewrite Hn, Ht.
Qed.

(** X16. [HasWriteLease] answers true exactly when the lease recorded for
    the page is a Write lease whose expiry instant has not passed. *)
Theorem HasWriteLease_iff lm now a p :
  HasWriteLease lm now a p = true
  ↔ ∃ l, leases lm !! (a, p) = Some l
         ∧ Type_ l = WriteLease ∧ now <= ExpiresAt l.
Proof.
  unfold HasWriteLease, After.
  destruct (leases lm !! (a, p)) as [l|]; [| split; [done | by intros (? & ? & _)]].
  destruct (Z.ltb_spec (ExpiresAt l) now) as [Hlt | Hge].
  - split; [done |]. intros (l' & [= <-] & _ & Hle). lia.
  - rewrite bool_decide_eq_true. split.
    + intros Hty. by exists l.
    + by intros (l' & [= <-] & Hty & _).
Qed.

(** X17. After a sweep at [now] no lease of the table is expired at [now],
    every lease kept was there before, a second sweep at the same
    instant changes nothing, and a sweep of a table with no expired
    lease changes nothing. *)
Theorem CleanupExpiredLeases_sweep lm now :
  let lm' := CleanupExpiredLeases lm now in
  (∀ k l, leases lm' !! k = Some l →
          leases lm !! k = Some l ∧ now <= ExpiresAt l)
  ∧ CleanupExpiredLeases lm' now = lm'
  ∧ ((∀ k l, leases lm !! k = Some l → now <= ExpiresAt l) → lm' = lm)
  ∧ ttl lm' = ttl lm
  ∧ (size (leases lm') ≤ size (leases lm))%nat.
Proof.
  cbv zeta.
  assert (Hkeep : ∀ k l, leases (CleanupExpiredLeases lm now) !! k = Some l →
                         leases lm !! k = Some l ∧ now <= ExpiresAt l).
  { intros k l. rewrite CleanupExpiredLeases_lookup.
    destruct (leases lm !! k) as [l'|]; [| done]. cbn. unfold After.
    destruct (Z.ltb_spec (ExpiresAt l') now); [done |].
    intros [= <-]. done. }
  assert (Hid : ∀ lm0, (∀ k l, leases lm0 !! k = Some l → now <= ExpiresAt l) →
                       CleanupExpiredLeases lm0 now = lm0).
  { intros lm0 Hall. destruct lm0 as [m t].
    unfold CleanupExpiredLeases, with_leases. cbn [leases ttl] in *.
    f_equal. apply map_eq. intros k.
    pose proof (CleanupExpiredLeases_lookup {| leases := m; ttl := t |} now k)
      as H. cbn [CleanupExpiredLeases with_leases leases] in H. rewrite H.
    destruct (m !! k) as [l|] eqn:Hk; [| done]. cbn. unfold After.
    destruct (Z.ltb_spec (ExpiresAt l) now) as [Hlt | Hge]; [| done].
    specialize (Hall _ _ Hk). lia. }
  split; [exact Hkeep |]. split; [| split; [| split]].
  - apply Hid. intros k l H. by apply Hkeep in H as [_ H].
  - exact (Hid lm).
  - done.
  - apply map_subseteq_size, map_subseteq_spec.
    intros k l H. by apply Hkeep in H as [H _].
Qed.

Lemma CleanupExpiredLeases_sweep_witness :
  CleanupExpiredLeases held_write 5 = held_write
  ∧ leases (CleanupExpiredLeases held_write 11) !! ("array-1", 0) = None.
Proof.
  destruct (CleanupExpiredLeases_sweep held_write 5) as (_ & _ & Hid & _).
  split.
  - apply Hid. rewrite held_write_leases.
    intros k l [_ <-]%lookup_singleton_Some. cbn. lia.
  - destruct (leases (CleanupExpiredLeases held_write 11) !! ("array-1", 0))
      as [l|] eqn:Hl; [| done].
    destruct (CleanupExpiredLeases_sweep held_write 11) as (Hkeep & _).
    apply Hkeep in Hl as [Hl Hle]. exfalso.
    rewrite held_write_leases, lookup_singleton_eq in Hl.
    injection Hl as <-. cbn in Hle. lia.
Defined.
End LeaseRemoval.

(** ** More on the page cache *)

Section CacheMore.
Local Open Scope Z_scope.
Import Cache CacheEntries.

Implicit Types (pc : PageCache) (k : cacheKey) (e : cacheEntry).

(** *** Entries carry their own key *)

Lemma entries_keyed_touch pc k e0 e :
  entries_keyed pc → cache pc !! k = Some e0 → key e = key e0 →
  entries_keyed (touch pc k e).
Proof.
  intros Hk H0 He k' e'. unfold touch.
  destruct (fromFreq e); cbn [negb cache]; rewrite lookup_insert_Some;
    (intros [[<- <-] | [_ H]]; [| by apply Hk]); cbn [key];
    rewrite He; by apply Hk.
Qed.

Lemma entries_keyed_evict pc : entries_keyed pc → entries_keyed (evict pc).
Proof.
  intros Hk k e. unfold evict. repeat case_match; cbn [cache];
    rewrite ?lookup_delete_Some; intros Hd; apply Hk; tauto.
Qed.

Lemma entries_keyed_run_op pc o :
  entries_keyed pc → entries_keyed (run_op pc o).
Proof.
  intros Hk. destruct o as [a p | a p pg | a p]; cbn [run_op].
  - unfold Get. destruct (cache pc !! (a, p)) as [e|] eqn:He; [| done].
    by eapply entries_keyed_touch.
  - unfold Put. destruct (cache pc !! (a, p)) as [e|] eqn:He.
    + by eapply entries_keyed_touch.
    + assert (Hk' : entries_keyed
               {| capacity := capacity pc;
                  cache := <[(a, p) := {| key := (a, p); page := pg;
                                          fromFreq := false |}]> (cache pc);
                  freqList := freqList pc;
                  onceList := PushFront (a, p) (onceList pc) |}).
      { intros k e. cbn [cache]. rewrite lookup_insert_Some.
        intros [[<- <-] | [_ H]]; [done | by apply Hk]. }
      case_match; [by apply entries_keyed_evict | done].
  - unfold Remove. destruct (cache pc !! (a, p)) as [e|]; [| done].
    destruct (fromFreq e); intros k e'; cbn [cache];
      rewrite lookup_delete_Some; intros [_ H]; by apply Hk.
Qed.

Lemma entries_keyed_run cap (ops : list op) : entries_keyed (run cap ops).
Proof.
  unfold run.
  assert (H0 : entries_keyed (NewPageCache cap))
    by (intros k e H; cbn [NewPageCache cache] in H;
        by rewrite lookup_empty in H).
  revert H0. generalize (NewPageCache cap).
  induction ops as [|o ops IH]; intros pc Hk; [done |].
  cbn [foldl]. by apply IH, entries_keyed_run_op.
Qed.

Lemma wf_keys pc k : wf pc → k ∈ keys pc ↔ k ∈ onceList pc ++ freqList pc.
Proof.
  intros (_ & _ & H1 & H2). unfold keys.
  rewrite elem_of_dom, elem_of_app, H1, H2. split.
  - intros [e He]. destruct (fromFreq e) eqn:Hf; [right | left]; eauto.
  - intros [(e & He & _) | (e & He & _)]; eauto.
Qed.

Lemma wf_NoDup_all pc : wf pc → NoDup (onceList pc ++ freqList pc).
Proof.
  intros (N1 & N2 & H1 & H2). apply NoDup_app. repeat split; try done.
  intros k (e & He & Hf)%H1 (e' & He' & Hf')%H2. congruence.
Qed.

Lemma wf_size pc :
  wf pc → size (cache pc) = (length (onceList pc) + length (freqList pc))%nat.
Proof.
  intros Hwf. rewrite <- size_dom, <- length_app.
  rewrite <- (size_list_to_set (C := gset cacheKey)
                (onceList pc ++ freqList pc)) by by apply wf_NoDup_all.
  f_equal. apply set_eq. intros k. rewrite elem_of_list_to_set.
  by apply wf_keys.
Qed.

(** X18. In every reachable state the two lists and the index describe the
    same set of pages: no key occurs twice across the lists, a key is
    in a list exactly when it is in the index, the number of entries is
    the sum of the list lengths, every entry is stored under its own
    key, and the capacity is the one given at construction. *)
Theorem PageCache_lists_agree_with_index (cap : Z) (ops : list op) :
  NoDup (onceList (run cap ops) ++ freqList (run cap ops))
  ∧ (∀ k, k ∈ keys (run cap ops)
          ↔ k ∈ onceList (run cap ops) ++ freqList (run cap ops))
  ∧ Size (run cap ops)
    = Z.of_nat (length (onceList (run cap ops)))
      + Z.of_nat (length (freqList (run cap ops)))
  ∧ (∀ k e, cache (run cap ops) !! k = Some e →
            key e = k ∧ (fromFreq e = true ↔ k ∈ freqList (run cap ops)))
  ∧ Capacity (run cap ops) = cap.
Proof.
  pose proof (wf_run cap ops) as Hwf.
  pose proof (entries_keyed_run cap ops) as Hk.
  split; [by apply wf_NoDup_all |].
  split; [intros k; by apply wf_keys |].
  split; [unfold Size; rewrite wf_size by done; lia |].
  split; [| apply capacity_run].
  intros k e He. split; [by apply Hk |].
  destruct Hwf as (_ & _ & H1 & H2). rewrite H2. split.
  - intros Hf. eauto.
  - intros (e' & He' & Hf'). congruence.
Qed.

(** *** The capacity bound *)

Lemma size_touch pc k e0 e :
  cache pc !! k = Some e0 → size (cache (touch pc k e)) = size (cache pc).
Proof.
  intros H0. unfold touch.
  destruct (fromFreq e); cbn [negb cache]; apply map_size_insert_Some; eauto.
Qed.

(** The state of [Put] between the insertion of a new page and the
    test of the capacity. *)
Lemma wf_push_new pc a p pg :
  wf pc → cache pc !! (a, p) = None →
  wf {| capacity := capacity pc;
        cache := <[(a, p) := {| key := (a, p); page := pg;
                                fromFreq := false |}]> (cache pc);
        freqList := freqList pc;
        onceList := PushFront (a, p) (onceList pc) |}.
Proof.
  intros Hwf He. pose proof Hwf as (N1 & N2 & H1 & H2).
  destruct (wf_absent pc _ Hwf He) as [Hn1 Hn2].
  unfold wf, PushFront; cbn [onceList freqList cache]. repeat split.
  - by apply NoDup_cons.
  - done.
  - rewrite elem_of_cons. intros [-> | Hin].
    + eexists. by rewrite lookup_insert_eq.
    + apply H1 in Hin as (e' & He' & Hf'). exists e'.
      rewrite lookup_insert_ne; [done |]. intros <-. congruence.
  - rewrite elem_of_cons. intros (e' & He' & Hf').
    apply lookup_insert_Some in He' as [[<- _] | [Hne He']]; [by left |].
    right. apply H1. eauto.
  - intros (e' & He' & Hf')%H2. exists e'.
    rewrite lookup_insert_ne; [done |]. intros <-. congruence.
  - intros (e' & He' & Hf').
    apply lookup_insert_Some in He' as [[_ <-] | [Hne He']]; [done |].
    apply H2. eauto.
Qed.

Lemma size_run_op_bound pc o (n : nat) :
  wf pc → Z.of_nat n = Z.max 0 (capacity pc) →
  (size (cache pc) ≤ n)%nat → (size (cache (run_op pc o)) ≤ n)%nat.
Proof.
  intros Hwf Hn Hs. destruct o as [a p | a p pg | a p]; cbn [run_op].
  - unfold Get. destruct (cache pc !! (a, p)) as [e|] eqn:He; [| done].
    cbn [fst]. by erewrite size_touch.
  - unfold Put. destruct (cache pc !! (a, p)) as [e|] eqn:He.
    + by erewrite size_touch.
    + cbn [capacity cache]. rewrite map_size_insert_None by done.
      destruct (Z.gtb_spec (Z.of_nat (S (size (cache pc)))) (capacity pc))
        as [Hgt | Hle]; [| cbn [cache]; rewrite map_size_insert_None by done;
                          lia].
      set (pc' := {| capacity := capacity pc;
                     cache := <[(a, p) := {| key := (a, p); page := pg;
                                             fromFreq := false |}]> (cache pc);
                     freqList := freqList pc;
                     onceList := PushFront (a, p) (onceList pc) |}).
      destruct (last (onceList pc')) as [victim|] eqn:Hl;
        [| by apply last_None in Hl].
      rewrite (evict_once pc' victim Hl). cbn [cache].
      assert (Hwf' : wf pc') by by apply wf_push_new.
      assert (Hv : is_Some (cache pc' !! victim)).
      { destruct Hwf' as (_ & _ & H1 & _).
        apply last_Some_elem_of, H1 in Hl as (e & He' & _). eauto. }
      rewrite (map_size_delete_Some _ _ Hv).
      subst pc'. cbn [cache]. rewrite map_size_insert_None by done. lia.
  - unfold Remove. destruct (cache pc !! (a, p)) as [e|] eqn:He; [| done].
    destruct (fromFreq e); cbn [cache];
      rewrite (map_size_delete_Some _ _ (mk_is_Some _ _ He)); lia.
Qed.

(** X19. A cache never holds more entries than its capacity (none at all
    when the capacity is negative). *)
Theorem PageCache_size_within_capacity (cap : Z) (ops : list op) :
  Size (run cap ops) <= Z.max 0 cap.
Proof.
  unfold Size, run.
  assert (H : ∀ pc, wf pc → capacity pc = cap →
              Z.of_nat (size (cache pc)) <= Z.max 0 cap →
              Z.of_nat (size (cache (foldl run_op pc ops))) <= Z.max 0 cap).
  { induction ops as [|o ops IH]; intros pc Hwf Hc Hs; [done |].
    cbn [foldl]. apply IH.
    - by apply wf_run_op.
    - by rewrite capacity_run_op.
    - pose proof (size_run_op_bound pc o (Z.to_nat (Z.max 0 cap)) Hwf) as Hb.
      rewrite Hc in Hb. specialize (Hb ltac:(lia) ltac:(lia)). lia. }
  apply H; [apply wf_NewPageCache | done |].
  cbn [NewPageCache cache]. rewrite map_size_empty. lia.
Qed.
End CacheMore.

Section CacheCalls.
Local Open Scope Z_scope.
Import Cache CacheEntries.

Implicit Types (pc : PageCache) (k : cacheKey) (e : cacheEntry).

Lemma touch_lookup pc k e :
  ∃ e', cache (touch pc k e) !! k = Some e'
        ∧ page e' = page e ∧ fromFreq e' = true.
Proof.
  unfold touch. destruct (fromFreq e) eqn:Hf; cbn [negb cache];
    eexists; rewrite lookup_insert_eq; done.
Qed.

Lemma touch_front pc k e :
  head (freqList (touch pc k e)) = Some k
  ∧ (wf pc → cache pc !! k = Some e → k ∉ onceList (touch pc k e)).
Proof.
  unfold touch. destruct (fromFreq e) eqn:Hf; cbn [negb freqList onceList];
    (split; [done |]).
  - intros Hwf Hk. by destruct (wf_freq_not_once pc k e Hwf Hk Hf).
  - intros _ _. rewrite elem_of_ListRemove. by intros [? _].
Qed.

Lemma keys_touch pc k e0 e :
  cache pc !! k = Some e0 → keys (touch pc k e) = keys pc.
Proof.
  intros H0. unfold keys, touch.
  destruct (fromFreq e); cbn [negb cache]; apply dom_insert_lookup_L; eauto.
Qed.

(** X20. A lookup never changes which pages are cached; it misses exactly
    on the pages that are not cached; on a hit it returns the page of
    the entry and leaves the entry at the front of the frequent list
    and outside the once list. *)
Theorem Get_hit_and_miss pc a p :
  wf pc →
  keys (Get pc a p).1 = keys pc
  ∧ ((Get pc a p).2 = None ↔ (a, p) ∉ keys pc)
  ∧ ((a, p) ∉ keys pc → (Get pc a p).1 = pc)
  ∧ (∀ e, cache pc !! (a, p) = Some e →
       (Get pc a p).2 = Some (page e)
       ∧ head (freqList (Get pc a p).1) = Some (a, p)
       ∧ ((a, p) ∉ onceList (Get pc a p).1)
       ∧ Size (Get pc a p).1 = Size pc).
Proof.
  intros Hwf. unfold Get, keys, Size.
  destruct (cache pc !! (a, p)) as [e|] eqn:He; cbn [fst snd].
  - split; [by eapply keys_touch |]. split; [| split].
    + split; [done |]. intros Hn. exfalso. apply Hn, elem_of_dom. eauto.
    + intros Hn. exfalso. apply Hn, elem_of_dom. eauto.
    + intros e' [= <-]. destruct (touch_front pc (a, p) e) as [Hh Hn].
      repeat split; try done; [by apply Hn |].
      by erewrite size_touch.
  - split; [done |]. split; [| split]; try done.
    split; [| done]. intros _. by apply not_elem_of_dom.
Qed.

Lemma Get_hit_and_miss_witness :
  (Get (run 2 [OpPut "array-1" 0 page0]) "array-1" 0).2 = Some page0
  ∧ (Get (run 2 [OpPut "array-1" 0 page0]) "array-2" 0).2 = None.
Proof.
  destruct (Get_hit_and_miss (run 2 [OpPut "array-1" 0 page0]) "array-1" 0
              (wf_run _ _)) as (_ & _ & _ & Hhit).
  destruct (Get_hit_and_miss (run 2 [OpPut "array-1" 0 page0]) "array-2" 0
              (wf_run _ _)) as (_ & Hmiss & _).
  split.
  - destruct (Hhit {| key := ("array-1", 0); page := page0;
                      fromFreq := false |} eq_refl) as [H _]. exact H.
  - apply Hmiss. unfold keys. apply not_elem_of_dom. reflexivity.
Defined.

Lemma last_cons_nonempty (x : cacheKey) (l : list cacheKey) :
  l ≠ [] → last (x :: l) = last l.
Proof. destruct l; [done | intros _; apply last_cons_cons]. Qed.

(** X21. A page that was put is found by the next lookup, with the data
    given, whenever the page was already cached, or the cache had room,
    or the once list was not empty. *)
Theorem Put_then_Get pc a p pg :
  wf pc →
  is_Some (cache pc !! (a, p))
  ∨ Z.of_nat (size (cache pc)) < capacity pc
  ∨ onceList pc ≠ [] →
  (Get (Put pc a p pg) a p).2 = Some pg.
Proof.
  intros Hwf Hcond.
  assert (He : ∃ e, cache (Put pc a p pg) !! (a, p) = Some e ∧ page e = pg).
  { unfold Put. destruct (cache pc !! (a, p)) as [e0|] eqn:H0.
    - destruct (touch_lookup pc (a, p)
                  {| key := key e0; page := pg; fromFreq := fromFreq e0 |})
        as (e' & He' & Hp & _). eauto.
    - cbn [capacity cache]. rewrite map_size_insert_None by done.
      destruct (Z.gtb_spec (Z.of_nat (S (size (cache pc)))) (capacity pc))
        as [Hgt | Hle].
      + destruct Hcond as [[? [=]] | [Hroom | Hne]]; [lia |].
        destruct (wf_absent pc _ Hwf H0) as [Hn1 _].
        destruct (last (onceList pc)) as [victim|] eqn:Hl;
          [| by apply last_None in Hl].
        erewrite evict_once;
          [| cbn [onceList]; unfold PushFront;
             rewrite last_cons_nonempty by done; exact Hl].
        cbn [cache]. eexists. rewrite lookup_delete_ne.
        * by rewrite lookup_insert_eq.
        * intros ->. by apply Hn1, last_Some_elem_of.
      + cbn [cache]. eexists. by rewrite lookup_insert_eq. }
  destruct He as (e & He & Hp). unfold Get. rewrite He. cbn [snd].
  by rewrite Hp.
Qed.

Lemma Put_then_Get_witness :
  (Get (Put (NewPageCache 2) "array-1" 0 page0) "array-1" 0).2 = Some page0.
Proof.
  apply Put_then_Get; [apply wf_NewPageCache |].
  right; left. cbn [NewPageCache cache capacity].
  rewrite map_size_empty. lia.
Defined.

(** X22. When the cache is full and every cached page is in the frequent
    list, putting a page that is not cached changes nothing: the new
    page enters the once list and is the one evicted. *)
Theorem Put_new_page_dropped_when_all_frequent pc a p pg :
  wf pc → cache pc !! (a, p) = None →
  capacity pc <= Z.of_nat (size (cache pc)) → onceList pc = [] →
  Put pc a p pg = pc ∧ (Get (Put pc a p pg) a p).2 = None.
Proof.
  intros Hwf H0 Hfull Ho.
  assert (HP : Put pc a p pg = pc).
  { unfold Put. rewrite H0. cbn [capacity cache].
    rewrite map_size_insert_None by done.
    replace (Z.of_nat (S (size (cache pc))) >? capacity pc) with true
      by (symmetry; rewrite Z.gtb_ltb; apply Z.ltb_lt; lia).
    erewrite evict_once; [| cbn [onceList]; by rewrite Ho].
    cbn [capacity cache freqList onceList]. rewrite Ho.
    unfold PushFront, ListRemove. rewrite filter_cons_False by (by intros ?).
    rewrite filter_nil, delete_insert_id by done.
    destruct pc; cbn in *. by subst. }
  split; [exact HP |]. rewrite HP. unfold Get. by rewrite H0.
Qed.

Lemma Put_new_page_dropped_when_all_frequent_witness :
  Put (run 1 [OpPut "array-1" 0 page0; OpGet "array-1" 0]) "array-1" 1 page1
  = run 1 [OpPut "array-1" 0 page0; OpGet "array-1" 0].
Proof.
  apply (Put_new_page_dropped_when_all_frequent
           (run 1 [OpPut "array-1" 0 page0; OpGet "array-1" 0])
           "array-1" 1 page1).
  - apply wf_run.
  - reflexivity.
  - vm_compute. discriminate.
  - reflexivity.
Defined.

(** X23. A page of the frequent list is never evicted by a Put: after any
    Put it is still cached and still in the frequent list. *)
Theorem frequent_page_survives_Put pc k a p pg :
  wf pc → k ∈ freqList pc →
  k ∈ keys (Put pc a p pg) ∧ k ∈ freqList (Put pc a p pg).
Proof.
  intros Hwf Hk.
  assert (Hin : k ∈ freqList (Put pc a p pg)).
  { unfold Put. destruct (cache pc !! (a, p)) as [e0|] eqn:H0.
    - unfold touch. destruct (fromFreq e0); cbn [negb freqList fromFreq].
      + unfold MoveToFront. rewrite elem_of_cons, elem_of_ListRemove.
        destruct (decide (k = (a, p))); auto.
      + unfold PushFront. by right.
    - cbn [capacity cache]. case_match; [| done].
      unfold evict. cbn [onceList freqList].
      unfold PushFront, Len, Back. cbn [length].
      replace (0 <? Z.of_nat (S (length (onceList pc)))) with true
        by (symmetry; apply Z.ltb_lt; lia).
      destruct (last ((a, p) :: onceList pc)) eqn:Hl; [done |].
      by apply last_None in Hl. }
  split; [| done].
  apply wf_keys; [by apply wf_Put |]. apply elem_of_app. by right.
Qed.

Lemma frequent_page_survives_Put_witness :
  ("array-1", 0)
  ∈ keys (Put (run 1 [OpPut "array-1" 0 page0; OpGet "array-1" 0])
            "array-1" 1 page1).
Proof.
  apply (frequent_page_survives_Put
           (run 1 [OpPut "array-1" 0 page0; OpGet "array-1" 0])
           ("array-1", 0) "array-1" 1 page1).
  - apply wf_run.
  - vm_compute. left.
Defined.

(** X24. [Remove] takes the page out of the index and out of its list and
    touches no other page; removing a page that is not cached changes
    nothing; the next lookup of the page misses. *)
Theorem Remove_removes_only_that_page pc a p :
  wf pc →
  keys (Remove pc a p) = keys pc ∖ {[(a, p)]}
  ∧ onceList (Remove pc a p) = ListRemove (a, p) (onceList pc)
  ∧ freqList (Remove pc a p) = ListRemove (a, p) (freqList pc)
  ∧ (∀ k, k ≠ (a, p) → cache (Remove pc a p) !! k = cache pc !! k)
  ∧ ((a, p) ∉ keys pc → Remove pc a p = pc)
  ∧ (Get (Remove pc a p) a p).2 = None.
Proof.
  intros Hwf. unfold Remove, keys.
  destruct (cache pc !! (a, p)) as [e|] eqn:He.
  - assert (Hc : cache (if fromFreq e
                        then {| capacity := capacity pc;
                                cache := delete (a, p) (cache pc);
                                freqList := ListRemove (a, p) (freqList pc);
                                onceList := onceList pc |}
                        else {| capacity := capacity pc;
                                cache := delete (a, p) (cache pc);
                                freqList := freqList pc;
                                onceList := ListRemove (a, p) (onceList pc) |})
                 = delete (a, p) (cache pc)) by by destruct (fromFreq e).
    repeat split.
    + rewrite Hc. apply dom_delete_L.
    + destruct (fromFreq e) eqn:Hf; cbn [onceList]; [| done].
      destruct (wf_freq_not_once pc _ e Hwf He Hf) as [_ Hn].
      by rewrite ListRemove_not_elem.
    + destruct (fromFreq e) eqn:Hf; cbn [freqList]; [done |].
      destruct (wf_once_not_freq pc _ e Hwf He Hf) as [_ Hn].
      by rewrite ListRemove_not_elem.
    + intros k Hk. rewrite Hc. by apply lookup_delete_ne.
    + intros Hn. exfalso. apply Hn, elem_of_dom. eauto.
    + unfold Get. rewrite Hc, lookup_delete_eq. done.
  - destruct (wf_absent pc _ Hwf He) as [Hn1 Hn2]. repeat split.
    + apply not_elem_of_dom in He. symmetry.
      by apply difference_disjoint_L, disjoint_singleton_r.
    + by rewrite ListRemove_not_elem.
    + by rewrite ListRemove_not_elem.
    + unfold Get. by rewrite He.
Qed.

Lemma Remove_removes_only_that_page_witness :
  keys (Remove (run 2 [OpPut "array-1" 0 page0]) "array-1" 0)
  = keys (run 2 [OpPut "array-1" 0 page0]) ∖ {[("array-1", 0)]}.
Proof.
  destruct (Remove_removes_only_that_page (run 2 [OpPut "array-1" 0 page0])
              "array-1" 0 (wf_run _ _)) as [H _].
  exact H.
Defined.
End CacheCalls.

(** ** Memory manager *)

Section MemoryFacts.
Local Open Scope Z_scope.
Import Dsm Memory.

Implicit Types (mm : MemoryManager) (arr : Array) (pg : Page).

(** An array just created is the one [GetArray] returns under its ID;
    the other arrays and the local pages are as before, and no page is
    materialized. *)
Theorem CreateArray_then_GetArray mm uuid length :
  let r := CreateArray mm uuid length in
  r.2 = NewArray uuid length
  ∧ GetArray r.1 uuid = Done r.2
  ∧ (∀ arrayID, arrayID ≠ uuid → GetArray r.1 arrayID = GetArray mm arrayID)
  ∧ pages r.1 = pages mm
  ∧ localNode r.1 = localNode mm.
Proof.
  cbv zeta. unfold CreateArray, GetArray.
  cbn [fst snd with_arrays arrays pages localNode NewArray AID].
  repeat split.
  - by rewrite lookup_insert_eq.
  - intros arrayID Hne. by rewrite lookup_insert_ne.
Qed.

(** X25. Deleting a known array makes [GetArray] fail for its ID and leaves
    the other arrays alone; deleting an unknown ID fails and changes
    nothing. In neither case are local pages removed: the pages of a
    deleted array stay in the page table. *)
Theorem DeleteArray_outcomes mm arrayID :
  (∀ arr, arrays mm !! arrayID = Some arr →
     (DeleteArray mm arrayID).2 = Done tt
     ∧ GetArray (DeleteArray mm arrayID).1 arrayID
       = Failed (ErrArrayNotFound arrayID)
     ∧ ∀ other, other ≠ arrayID →
         GetArray (DeleteArray mm arrayID).1 other = GetArray mm other)
  ∧ (arrays mm !! arrayID = None →
     DeleteArray mm arrayID = (mm, Failed (ErrArrayNotFound arrayID)))
  ∧ pages (DeleteArray mm arrayID).1 = pages mm.
Proof.
  unfold DeleteArray, GetArray. split; [| split].
  - intros arr Harr. rewrite Harr. cbn [fst snd with_arrays arrays].
    split; [done |]. split.
    + by rewrite lookup_delete_eq.
    + intros other Hne. by rewrite lookup_delete_ne.
  - by intros ->.
  - by destruct (arrays mm !! arrayID).
Qed.

Lemma DeleteArray_outcomes_witness :
  GetArray (DeleteArray (CreateArray (NewMemoryManager "node-1")
                           "array-1" 1000).1 "array-1").1 "array-1"
  = Failed (ErrArrayNotFound "array-1")
  ∧ DeleteArray (NewMemoryManager "node-1") "non-existent"
    = (NewMemoryManager "node-1", Failed (ErrArrayNotFound "non-existent")).
Proof.
  destruct (DeleteArray_outcomes
              (CreateArray (NewMemoryManager "node-1") "array-1" 1000).1
              "array-1") as (Hdel & _ & _).
  destruct (DeleteArray_outcomes (NewMemoryManager "node-1") "non-existent")
    as (_ & Hunk & _).
  split.
  - destruct (Hdel (NewArray "array-1" 1000)) as (_ & H & _);
      [reflexivity | exact H].
  - apply Hunk. reflexivity.
Defined.

(** X26. [RequestPage] fails, without changing the manager, for an unknown
    array (the not-found error wrapped) and for a page of a known array
    that has no owner. *)
Theorem RequestPage_failures mm arrayID pageID version :
  (arrays mm !! arrayID = None →
     RequestPage mm arrayID pageID version
     = (mm, Failed (ErrWrap "failed to get array"
                      (ErrArrayNotFound arrayID))))
  ∧ (∀ arr, arrays mm !! arrayID = Some arr →
       PageMapping arr !! pageID = None →
       RequestPage mm arrayID pageID version
       = (mm, Failed (ErrPageOwnerNotFound pageID arrayID))).
Proof.
  unfold RequestPage, GetArray, GetPageOwner. split.
  - by intros ->.
  - intros arr -> Hown. by rewrite Hown.
Qed.

Lemma RequestPage_failures_witness :
  RequestPage (NewMemoryManager "node-1") "array-1" 0 1
  = (NewMemoryManager "node-1",
     Failed (ErrWrap "failed to get array" (ErrArrayNotFound "array-1")))
  ∧ (RequestPage (CreateArray (NewMemoryManager "node-1") "array-1" 1000).1
       "array-1" 0 1).2
    = Failed (ErrPageOwnerNotFound 0 "array-1").
Proof.
  destruct (RequestPage_failures (NewMemoryManager "node-1") "array-1" 0 1)
    as [Hunk _].
  destruct (RequestPage_failures
              (CreateArray (NewMemoryManager "node-1") "array-1" 1000).1
              "array-1" 0 1) as [_ Hown].
  split.
  - apply Hunk. reflexivity.
  - rewrite (Hown (NewArray "array-1" 1000)); reflexivity.
Defined.

(** X27. A page owned by the local node is materialized once: the first
    request creates a zeroed page with the requested version and files
    it; every later request, whatever version it names, returns that
    same page and leaves the manager unchanged. *)
Theorem RequestPage_local_materializes_once
    mm arr arrayID pageID version version' :
  arrays mm !! arrayID = Some arr →
  PageMapping arr !! pageID = Some (localNode mm) →
  let r := RequestPage mm arrayID pageID version in
  ∃ pg, r.2 = Done pg
        ∧ pages r.1 !! (arrayID, pageID) = Some pg
        ∧ RequestPage r.1 arrayID pageID version' = (r.1, Done pg)
        ∧ (pages mm !! (arrayID, pageID) = None →
             pg = NewPage pageID version)
        ∧ (∀ pg0, pages mm !! (arrayID, pageID) = Some pg0 →
             pg = pg0 ∧ r.1 = mm)
        ∧ arrays r.1 = arrays mm.
Proof.
  intros Harr Hown. cbv zeta.
  assert (Hreq : ∀ mm0 v, arrays mm0 = arrays mm →
                          localNode mm0 = localNode mm →
            RequestPage mm0 arrayID pageID v
            = getLocalPage mm0 arrayID pageID v).
  { intros mm0 v Ha Hl. unfold RequestPage, GetArray, GetPageOwner.
    rewrite Ha, Harr, Hown, Hl. by rewrite bool_decide_eq_true_2. }
  rewrite (Hreq mm version eq_refl eq_refl). unfold getLocalPage.
  destruct (pages mm !! (arrayID, pageID)) as [pg0|] eqn:Hpg; cbn [fst snd].
  - exists pg0. rewrite (Hreq mm version' eq_refl eq_refl).
    unfold getLocalPage. rewrite Hpg. repeat split; try done; congruence.
  - exists (NewPage pageID version).
    rewrite (Hreq _ version') by done.
    unfold getLocalPage. cbn [with_pages pages arrays].
    rewrite lookup_insert_eq. repeat split; try done.
Qed.

Lemma RequestPage_local_materializes_once_witness :
  let mm := SetPageOwnerOf
              (CreateArray (NewMemoryManager "node-1") "array-1" 1000).1
              "array-1" 0 "node-1" in
  ∃ pg, (RequestPage mm "array-1" 0 1).2 = Done pg
        ∧ RequestPage (RequestPage mm "array-1" 0 1).1 "array-1" 0 2
          = ((RequestPage mm "array-1" 0 1).1, Done pg).
Proof.
  cbv zeta.
  destruct (RequestPage_local_materializes_once
              (SetPageOwnerOf
                 (CreateArray (NewMemoryManager "node-1") "array-1" 1000).1
                 "array-1" 0 "node-1")
              (SetPageOwner (NewArray "array-1" 1000) 0 "node-1")
              "array-1" 0 1 2 eq_refl eq_refl)
    as (pg & H1 & _ & H2 & _).
  exists pg. split; [exact H1 | exact H2].
Defined.

(** X28. A page owned by another node is answered with a newly made zeroed
    page of the requested version; nothing is fetched and nothing is
    stored, and a copy held locally under the same key is not used. *)
Theorem RequestPage_remote_returns_blank_page
    mm arr arrayID pageID version owner :
  arrays mm !! arrayID = Some arr →
  PageMapping arr !! pageID = Some owner →
  owner ≠ localNode mm →
  RequestPage mm arrayID pageID version
  = (mm, Done (NewPage pageID version)).
Proof.
  intros Harr Hown Hne. unfold RequestPage, GetArray, GetPageOwner.
  rewrite Harr, Hown. by rewrite bool_decide_eq_false_2.
Qed.

Lemma RequestPage_remote_returns_blank_page_witness :
  (RequestPage
     (SetPageOwnerOf
        (CreateArray (NewMemoryManager "node-1") "array-1" 1000).1
        "array-1" 0 "node-2") "array-1" 0 7).2
  = Done (NewPage 0 7).
Proof.
  rewrite (RequestPage_remote_returns_blank_page
             (SetPageOwnerOf
                (CreateArray (NewMemoryManager "node-1") "array-1" 1000).1
                "array-1" 0 "node-2")
             (SetPageOwner (NewArray "array-1" 1000) 0 "node-2")
             "array-1" 0 7 "node-2" eq_refl eq_refl); [reflexivity |].
  discriminate.
Defined.

(** A page stored for a locally owned page is the page the next request
    returns. *)
Theorem storePage_then_RequestPage mm arr arrayID pageID version pg :
  arrays mm !! arrayID = Some arr →
  PageMapping arr !! pageID = Some (localNode mm) →
  (storePage mm arrayID pageID pg).2 = Done tt
  ∧ RequestPage (storePage mm arrayID pageID pg).1 arrayID pageID version
    = ((storePage mm arrayID pageID pg).1, Done pg).
Proof.
  intros Harr Hown. split; [done |].
  unfold storePage, RequestPage, GetArray, GetPageOwner.
  cbn [fst with_pages arrays localNode]. rewrite Harr, Hown.
  rewrite bool_decide_eq_true_2 by done.
  unfold getLocalPage. cbn [with_pages pages]. by rewrite lookup_insert_eq.
Qed.

Lemma storePage_then_RequestPage_witness :
  let mm := SetPageOwnerOf
              (CreateArray (NewMemoryManager "node-1") "array-1" 1000).1
              "array-1" 0 "node-1" in
  (RequestPage (storePage mm "array-1" 0 (NewPage 0 5)).1 "array-1" 0 1).2
  = Done (NewPage 0 5).
Proof.
  cbv zeta.
  destruct (storePage_then_RequestPage
              (SetPageOwnerOf
                 (CreateArray (NewMemoryManager "node-1") "array-1" 1000).1
                 "array-1" 0 "node-1")
              (SetPageOwner (NewArray "array-1" 1000) 0 "node-1")
              "array-1" 0 1 (NewPage 0 5) eq_refl eq_refl) as [_ H].
  by rewrite H.
Defined.

(** The owner set for a page is the owner read back, for any page ID,
    inside [0, NumPages) or not; the owners of the other pages and the
    length, page count and version of the array stay as they are. *)
Theorem SetPageOwner_then_GetPageOwner arr pageID nodeID :
  GetPageOwner (SetPageOwner arr pageID nodeID) pageID = Some nodeID
  ∧ (∀ other, other ≠ pageID →
       GetPageOwner (SetPageOwner arr pageID nodeID) other
       = GetPageOwner arr other)
  ∧ PageCount (SetPageOwner arr pageID nodeID) = PageCount arr
  ∧ Length (SetPageOwner arr pageID nodeID) = Length arr
  ∧ AVersion (SetPageOwner arr pageID nodeID) = AVersion arr
  ∧ AID (SetPageOwner arr pageID nodeID) = AID arr.
Proof.
  unfold GetPageOwner, SetPageOwner, PageCount.
  cbn [PageMapping NumPages Length AVersion AID]. repeat split.
  - by rewrite lookup_insert_eq.
  - intros other Hne. by rewrite lookup_insert_ne.
Qed.

(** X29. [sharedArray.Get(i)]: a negative index is refused with the
    index error before the handle is looked at; on a handle without
    array (the one [NewSharedArray] builds) any other index stops in a
    nil dereference; an index at or beyond the length is refused with
    the index error; a valid index on a handle without cluster or
    without memory manager stops in a nil dereference. For a valid
    index the call is [RequestPage] for page 0 of the array at the
    version of the array, whatever the index, with a failure wrapped;
    in particular, when page 0 is owned and stored locally, that stored
    page is returned for every valid index and nothing changes. *)
Theorem SharedGet_always_page_zero
    (cluster : option Cluster) (sa : Api.sharedArray) (i : Z) :
  (i < 0 → SharedGet cluster sa i = (cluster, Failed (ErrIndexOutOfBounds i)))
  ∧ (0 <= i → Api.array sa = None →
     SharedGet cluster sa i
     = (cluster, Crashed (Runtime PanicNilDereference)))
  ∧ (∀ arr, Api.array sa = Some arr → Length arr <= i →
       SharedGet cluster sa i = (cluster, Failed (ErrIndexOutOfBounds i)))
  ∧ (∀ arr, Api.array sa = Some arr → 0 <= i < Length arr →
       cluster = None ∨ cluster = Some {| memoryManager := None |} →
       SharedGet cluster sa i
       = (cluster, Crashed (Runtime PanicNilDereference)))
  ∧ (∀ arr mm, Api.array sa = Some arr → 0 <= i < Length arr →
       cluster = Some {| memoryManager := Some mm |} →
       SharedGet cluster sa i
       = (Some {| memoryManager :=
                    Some (RequestPage mm (AID arr) 0 (AVersion arr)).1 |},
          match (RequestPage mm (AID arr) 0 (AVersion arr)).2 with
          | Failed f => Failed (ErrWrap "failed to request page" f)
          | r => r
          end))
  ∧ (∀ arr mm held pg, Api.array sa = Some arr → 0 <= i < Length arr →
       cluster = Some {| memoryManager := Some mm |} →
       arrays mm !! AID arr = Some held →
       PageMapping held !! 0 = Some (localNode mm) →
       pages mm !! (AID arr, 0) = Some pg →
       SharedGet cluster sa i = (cluster, Done pg)).
Proof.
  unfold SharedGet. repeat split.
  - intros Hneg. by replace (i <? 0) with true
      by (symmetry; apply Z.ltb_lt; lia).
  - intros Hi ->. by replace (i <? 0) with false
      by (symmetry; apply Z.ltb_ge; lia).
  - intros arr -> Hlen.
    destruct (i <? 0); [done |].
    by replace (Length arr <=? i) with true
      by (symmetry; apply Z.leb_le; lia).
  - intros arr -> Hi Hc.
    replace (i <? 0) with false by (symmetry; apply Z.ltb_ge; lia).
    replace (Length arr <=? i) with false by (symmetry; apply Z.leb_gt; lia).
    by destruct Hc as [-> | ->].
  - intros arr mm -> Hi ->.
    replace (i <? 0) with false by (symmetry; apply Z.ltb_ge; lia).
    replace (Length arr <=? i) with false by (symmetry; apply Z.leb_gt; lia).
    cbn [memoryManager].
    destruct (RequestPage mm (AID arr) 0 (AVersion arr)) as [mm' r].
    cbn [fst snd]. by destruct r.
  - intros arr mm held pg -> Hi -> Harr Hown Hpg.
    replace (i <? 0) with false by (symmetry; apply Z.ltb_ge; lia).
    replace (Length arr <=? i) with false by (symmetry; apply Z.leb_gt; lia).
    cbn [memoryManager].
    unfold RequestPage, GetArray, GetPageOwner. rewrite Harr, Hown.
    rewrite bool_decide_eq_true_2 by done.
    unfold getLocalPage. by rewrite Hpg.
Qed.

Lemma SharedGet_always_page_zero_witness :
  SharedGet example_cluster example_handle 99999
  = (example_cluster, Done (NewPage 0 5))
  ∧ SharedGet example_cluster example_handle 100000
    = (example_cluster, Failed (ErrIndexOutOfBounds 100000))
  ∧ SharedGet None {| Api.array := None |} 0
    = (None, Crashed (Runtime PanicNilDereference))
  ∧ SharedGet None {| Api.array := None |} (-1)
    = (None, Failed (ErrIndexOutOfBounds (-1))).
Proof.
  destruct (SharedGet_always_page_zero example_cluster example_handle 99999)
    as (_ & _ & _ & _ & _ & Hlocal).
  destruct (SharedGet_always_page_zero example_cluster example_handle 100000)
    as (_ & _ & Hlen & _).
  destruct (SharedGet_always_page_zero None {| Api.array := None |} 0)
    as (_ & Hnil & _).
  destruct (SharedGet_always_page_zero None {| Api.array := None |} (-1))
    as (Hneg & _).
  split; [| split; [| split]].
  - apply (Hlocal (NewArray "array-1" 100000) example_manager
             (SetPageOwner (NewArray "array-1" 100000) 0 "node-1")
             (NewPage 0 5)); [reflexivity | | reflexivity ..].
    cbn [NewArray Length]. lia.
  - apply (Hlen (NewArray "array-1" 100000)); [reflexivity |].
    cbn [NewArray Length]. lia.
  - apply Hnil; [lia | reflexivity].
  - apply Hneg. lia.
Defined.
End MemoryFacts.

(** ** Instances at concrete tables and caches *)

Section Instances.
Local Open Scope Z_scope.
Import Lease Cache.

Lemma one_lease_per_page_witness :
  (length (List.filter (covers "array-1" 0)
             (table (Lease.run 10
                       [Lease.OpAcquire 0 "lease-1" "array-1" 0 ReadLease
                          "client-1" 1;
                        Lease.OpAcquire 1 "lease-2" "array-1" 0 ReadLease
                          "client-2" 1]))) ≤ 1)%nat.
Proof.
  destruct (one_lease_per_page 10
              [Lease.OpAcquire 0 "lease-1" "array-1" 0 ReadLease "client-1" 1;
               Lease.OpAcquire 1 "lease-2" "array-1" 0 ReadLease "client-2" 1]
              "array-1" 0) as [H _].
  exact H.
Defined.

Lemma AcquireLease_refused_iff_witness :
  (∃ e, (AcquireLease held_read 5 "lease-2" "array-1" 0 WriteLease
           "client-2" 1).2 = Err e)
  ∧ (AcquireLease
       (AcquireLease (NewLeaseManager 10) 0 "lease-1" "array-1" 0 2
          "client-1" 1).1 5 "lease-2" "array-1" 0 WriteLease "client-2" 1).2
    = Ok {| ID := "lease-2"; ArrayID := "array-1"; PageID := 0;
            Type_ := WriteLease; Owner := "client-2"; ExpiresAt := 15;
            Version := 1 |}.
Proof.
  split.
  - apply (AcquireLease_refused_iff held_read 5 "lease-2" "array-1" 0
             WriteLease "client-2" 1).
    eexists. split; [reflexivity |]. by right.
  - destruct (AcquireLease_refused_iff
                (AcquireLease (NewLeaseManager 10) 0 "lease-1" "array-1" 0 2
                   "client-1" 1).1 5 "lease-2" "array-1" 0 WriteLease
                "client-2" 1) as [_ Hthrough].
    rewrite (Hthrough {| ID := "lease-1"; ArrayID := "array-1"; PageID := 0;
                         Type_ := 2; Owner := "client-1"; ExpiresAt := 10;
                         Version := 1 |} eq_refl).
    + reflexivity.
    + discriminate.
    + intros [Hr _]. discriminate Hr.
Defined.

Lemma HasWriteLease_iff_witness :
  HasWriteLease held_write 5 "array-1" 0 = true.
Proof.
  apply HasWriteLease_iff. eexists. split; [reflexivity |].
  split; [reflexivity |]. cbn. lia.
Defined.

Lemma PageCache_lists_agree_with_index_witness :
  Size (Cache.run 2 [OpPut "array-1" 0 page0; OpPut "array-1" 1 page1;
                     OpGet "array-1" 0]) = 1 + 1.
Proof.
  destruct (PageCache_lists_agree_with_index 2
              [OpPut "array-1" 0 page0; OpPut "array-1" 1 page1;
               OpGet "array-1" 0]) as (_ & _ & H & _).
  exact H.
Defined.
End Instances.
